(** * MLS-MPM substep (mlsmpm_materials2.py) over exact real arithmetic

    The Taichi kernel [substep] and its four stages [P2G], [update_gridv],
    [enforce_boundary] and [G2P] are embedded as functions on lists of
    particles and a flat list of grid nodes.  Floating-point numbers are read
    as real numbers ([R]); the 2x2 SVD supplied by Taichi is a section
    variable.  An access outside the [n_grid] x [n_grid] field has no defined
    result in the source, so every stage that indexes the grid returns an
    [option].  The data-parallel loops over particles run in list order; the
    sums they accumulate on the grid do not depend on that order over [R]. *)

From Stdlib Require Import Reals Lra Lia ZArith List Bool Psatz Permutation.
Import ListNotations.
Local Open Scope R_scope.

(** ** Vectors and matrices (ti.Vector / ti.Matrix of size 2) *)

Record Vec2 := vec2 { vx : R; vy : R }.
Record IVec2 := ivec2 { ix : Z; iy : Z }.
Record Mat2 := mat2 { m00 : R; m01 : R; m10 : R; m11 : R }.

Definition vzero : Vec2 := vec2 0 0.
Definition vadd (a b : Vec2) : Vec2 := vec2 (vx a + vx b) (vy a + vy b).
Definition vsub (a b : Vec2) : Vec2 := vec2 (vx a - vx b) (vy a - vy b).
(* scalar * vector, vector * scalar, vector - scalar (broadcast) *)
Definition vscale (s : R) (a : Vec2) : Vec2 := vec2 (s * vx a) (s * vy a).
Definition vscale_r (a : Vec2) (s : R) : Vec2 := vec2 (vx a * s) (vy a * s).
Definition vsub_s (a : Vec2) (s : R) : Vec2 := vec2 (vx a - s) (vy a - s).

Definition iadd (a b : IVec2) : IVec2 := ivec2 (ix a + ix b) (iy a + iy b).
Definition cast_float (a : IVec2) : Vec2 := vec2 (IZR (ix a)) (IZR (iy a)).

(* float -> int conversion truncates toward zero *)
Definition cast_int (r : R) : Z :=
  if Rle_dec 0 r then Int_part r else (- Int_part (- r))%Z.
Definition vcast_int (a : Vec2) : IVec2 := ivec2 (cast_int (vx a)) (cast_int (vy a)).

Definition mzero : Mat2 := mat2 0 0 0 0.
Definition mident : Mat2 := mat2 1 0 0 1.
Definition madd (a b : Mat2) : Mat2 :=
  mat2 (m00 a + m00 b) (m01 a + m01 b) (m10 a + m10 b) (m11 a + m11 b).
Definition msub (a b : Mat2) : Mat2 :=
  mat2 (m00 a - m00 b) (m01 a - m01 b) (m10 a - m10 b) (m11 a - m11 b).
Definition mscale (s : R) (a : Mat2) : Mat2 :=
  mat2 (s * m00 a) (s * m01 a) (s * m10 a) (s * m11 a).
Definition mscale_r (a : Mat2) (s : R) : Mat2 :=
  mat2 (m00 a * s) (m01 a * s) (m10 a * s) (m11 a * s).
(* a @ b *)
Definition mmul (a b : Mat2) : Mat2 :=
  mat2 (m00 a * m00 b + m01 a * m10 b) (m00 a * m01 b + m01 a * m11 b)
       (m10 a * m00 b + m11 a * m10 b) (m10 a * m01 b + m11 a * m11 b).
Definition transpose (a : Mat2) : Mat2 := mat2 (m00 a) (m10 a) (m01 a) (m11 a).
(* matrix @ vector *)
Definition mvec (a : Mat2) (u : Vec2) : Vec2 :=
  vec2 (m00 a * vx u + m01 a * vy u) (m10 a * vx u + m11 a * vy u).
Definition outer_product (a b : Vec2) : Mat2 :=
  mat2 (vx a * vx b) (vx a * vy b) (vy a * vx b) (vy a * vy b).

(* sig[d, d] and sig[d, d] = s, for d in range(2) *)
Definition diag_get (a : Mat2) (d : nat) : R :=
  match d with O => m00 a | _ => m11 a end.
Definition diag_set (a : Mat2) (d : nat) (s : R) : Mat2 :=
  match d with
  | O => mat2 s (m01 a) (m10 a) (m11 a)
  | _ => mat2 (m00 a) (m01 a) (m10 a) s
  end.

Definition det (a : Mat2) : R := m00 a * m11 a - m01 a * m10 a.
Definition trace (a : Mat2) : R := m00 a + m11 a.
(* deviatoric (trace-free) part of a 2x2 tensor *)
Definition deviatoric (a : Mat2) : Mat2 := msub a (mscale (trace a / 2) mident).

Definition orthogonal (a : Mat2) : Prop :=
  mmul (transpose a) a = mident /\ mmul a (transpose a) = mident.
Definition diagonal (a : Mat2) : Prop := m01 a = 0 /\ m10 a = 0.

(* s is a singular value of a: s >= 0 and s^2 is an eigenvalue of a^T a *)
Definition singular_value (a : Mat2) (s : R) : Prop :=
  0 <= s /\ det (msub (mmul (transpose a) a) (mscale (s * s) mident)) = 0.

(** ** Option monad for stages that index the grid *)

Definition bind {A B : Type} (m : option A) (f : A -> option B) : option B :=
  match m with Some a => f a | None => None end.

Notation "x <- m ;; k" := (bind m (fun x => k))
  (at level 61, m at next level, right associativity).
Notation "' p <- m ;; k" := (bind m (fun p => k))
  (at level 61, p pattern, m at next level, right associativity).

(** ** Simulation constants (module level of the source) *)

Record Params := {
  n_grid : Z;
  dt : R;
  gravity : R;
  E : R;
  nu : R
}.

(* the values the source file sets *)
Definition source_params : Params :=
  {| n_grid := 128; dt := 1e-4; gravity := 70; E := 0.1e4; nu := 0.2 |}.

(** ** Particle and grid state *)

(* one entry of the fields x, v, C, F, material, Jp *)
Record Particle := {
  x : Vec2;
  v : Vec2;
  C : Mat2;
  F : Mat2;
  material : Z;
  Jp : R
}.

(* one entry of the fields grid_v and grid_m, which have the same shape *)
Record Node := { grid_v : Vec2; grid_m : R }.

(* row-major [n_grid] x [n_grid] field *)
Definition Grid := list Node.

Definition node_zero : Node := {| grid_v := vzero; grid_m := 0 |}.

(* the 9 pairs of ti.static(ti.ndrange(3, 3)), in iteration order *)
Definition ndrange33 : list (nat * nat) :=
  [(0, 0); (0, 1); (0, 2); (1, 0); (1, 1); (1, 2); (2, 0); (2, 1); (2, 2)]%nat.

(* quadratic B-spline weights, w = [0.5 * (1.5 - fx) ** 2, 0.75 - (fx - 1) ** 2,
   0.5 * (fx - 0.5) ** 2], component-wise on the vector fx *)
Definition w0 (f : R) : R := 0.5 * (1.5 - f) ^ 2.
Definition w1 (f : R) : R := 0.75 - (f - 1) ^ 2.
Definition w2 (f : R) : R := 0.5 * (f - 0.5) ^ 2.
Definition bspline (fx : Vec2) : list Vec2 :=
  [vec2 (w0 (vx fx)) (w0 (vy fx));
   vec2 (w1 (vx fx)) (w1 (vy fx));
   vec2 (w2 (vx fx)) (w2 (vy fx))].

Fixpoint set_nth {A : Type} (k : nat) (a : A) (l : list A) : list A :=
  match l, k with
  | [], _ => []
  | _ :: t, O => a :: t
  | h :: t, S k' => h :: set_nth k' a t
  end.

Section Simulation.

Variable c : Params.
(* ti.svd: returns (U, sig, V) *)
Variable svd : Mat2 -> Mat2 * Mat2 * Mat2.

Definition dx : R := 1 / IZR (n_grid c).
Definition inv_dx : R := IZR (n_grid c).
Definition p_vol : R := (dx * 0.5) ^ 2.
Definition p_rho : R := 1.
Definition p_mass : R := p_vol * p_rho.
Definition mu_0 : R := E c / (2 * (1 + nu c)).
Definition lambda_0 : R := E c * nu c / ((1 + nu c) * (1 - 2 * nu c)).

(** *** Grid indexing *)

Definition in_grid (I : IVec2) : bool :=
  ((0 <=? ix I) && (ix I <? n_grid c) && (0 <=? iy I) && (iy I <? n_grid c))%Z.

Definition flat (I : IVec2) : nat := Z.to_nat (ix I * n_grid c + iy I).

(* grid_v[I], grid_m[I] *)
Definition grid_get (g : Grid) (I : IVec2) : option Node :=
  if in_grid I then nth_error g (flat I) else None.

(* grid_v[I] += dv; grid_m[I] += dm *)
Definition grid_add (g : Grid) (I : IVec2) (dv : Vec2) (dm : R) : option Grid :=
  nd <- grid_get g I ;;
  Some (set_nth (flat I)
          {| grid_v := vadd (grid_v nd) dv; grid_m := grid_m nd + dm |} g).

(* for i, j in grid_m: node (i, j) := f i j node *)
Fixpoint map_nodes_from (k : nat) (f : Z -> Z -> Node -> Node) (g : Grid) : Grid :=
  match g with
  | [] => []
  | nd :: rest =>
      f (Z.of_nat k / n_grid c)%Z (Z.of_nat k mod n_grid c)%Z nd
        :: map_nodes_from (S k) f rest
  end.
Definition map_nodes := map_nodes_from 0.

(* the shape (n_grid, n_grid) of grid_v and grid_m *)
Definition grid_shape (g : Grid) : Prop :=
  length g = Z.to_nat (n_grid c * n_grid c).

Definition total_mass (g : Grid) : R :=
  fold_right (fun nd acc => grid_m nd + acc) 0 g.

(** *** Base cell, fractional offset and weights (P2G and G2P) *)

Definition base_of (p : Particle) : IVec2 :=
  vcast_int (vsub_s (vscale_r (x p) inv_dx) 0.5).
Definition fx_of (p : Particle) : Vec2 :=
  vsub (vscale_r (x p) inv_dx) (cast_float (base_of p)).
(* weight = w[i][0] * w[j][1] *)
Definition weight_of (p : Particle) (i j : nat) : R :=
  vx (nth i (bspline (fx_of p)) vzero) * vy (nth j (bspline (fx_of p)) vzero).
Definition offset_of (i j : nat) : IVec2 := ivec2 (Z.of_nat i) (Z.of_nat j).

(** *** Constitutive model (the body of P2G before the scatter loop) *)

(* F[p] = (I + dt * C[p]) @ F[p] *)
Definition F_update (p : Particle) : Mat2 :=
  mmul (madd mident (mscale (dt c) (C p))) (F p).

(* h = max(0.1, min(5, exp(10 * (1.0 - Jp[p])))); jelly: h = 0.3 *)
Definition hardening (p : Particle) : R :=
  let h := Rmax 0.1 (Rmin 5 (exp (10 * (1 - Jp p)))) in
  if (material p =? 1)%Z then 0.3 else h.

(* mu, la = mu_0 * h, lambda_0 * h; liquid: mu = 0.0 *)
Definition mu_of (p : Particle) : R :=
  let mu := mu_0 * hardening p in
  if (material p =? 0)%Z then 0 else mu.
Definition la_of (p : Particle) : R := lambda_0 * hardening p.

Definition svd_U (a : Mat2) : Mat2 := fst (fst (svd a)).
Definition svd_sig (a : Mat2) : Mat2 := snd (fst (svd a)).
Definition svd_V (a : Mat2) : Mat2 := snd (svd a).

(* new_sig = min(max(sig[d, d], 1 - 2.5e-2), 1 + 4.5e-3) *)
Definition clamp_sig (s : R) : R := Rmin (Rmax s (1 - 2.5e-2)) (1 + 4.5e-3).

(* one iteration of  for d in ti.static(range(2))  on (sig, Jp[p], J) *)
Definition plastic_step (mat : Z) (st : Mat2 * R * R) (d : nat) : Mat2 * R * R :=
  let '(sig, jp, J) := st in
  let new_sig := if (mat =? 2)%Z then clamp_sig (diag_get sig d) else diag_get sig d in
  (diag_set sig d new_sig, jp * (diag_get sig d / new_sig), J * new_sig).

Definition plasticity (p : Particle) : Mat2 * R * R :=
  fold_left (plastic_step (material p)) [0; 1]%nat (svd_sig (F_update p), Jp p, 1).

Definition sig_new (p : Particle) : Mat2 := fst (fst (plasticity p)).
Definition Jp_new (p : Particle) : R := snd (fst (plasticity p)).
Definition J_of (p : Particle) : R := snd (plasticity p).

(* F[p] after the reset / reconstruction *)
Definition F_new (p : Particle) : Mat2 :=
  if (material p =? 0)%Z then mscale_r mident (sqrt (J_of p))
  else if (material p =? 2)%Z then
    mmul (mmul (svd_U (F_update p)) (sig_new p)) (transpose (svd_V (F_update p)))
  else F_update p.

(* stress = 2 * mu * (F[p] - U @ V.transpose()) @ F[p].transpose()
            + ti.Matrix.identity(float, 2) * la * J * (J - 1) *)
Definition stress (p : Particle) : Mat2 :=
  madd
    (mmul (mscale (2 * mu_of p)
             (msub (F_new p)
                (mmul (svd_U (F_update p)) (transpose (svd_V (F_update p))))))
       (transpose (F_new p)))
    (mscale_r (mscale_r (mscale_r mident (la_of p)) (J_of p)) (J_of p - 1)).

(* stress = (-dt * p_vol * 4 * inv_dx * inv_dx) * stress *)
Definition stress_scaled (p : Particle) : Mat2 :=
  mscale (- dt c * p_vol * 4 * inv_dx * inv_dx) (stress p).

(* affine = stress + p_mass * C[p] *)
Definition affine (p : Particle) : Mat2 :=
  madd (stress_scaled p) (mscale p_mass (C p)).

(* the particle after its P2G iteration: F[p] and Jp[p] were written *)
Definition p2g_particle (p : Particle) : Particle :=
  {| x := x p; v := v p; C := C p; F := F_new p;
     material := material p; Jp := Jp_new p |}.

(** *** P2G *)

(* the 3x3 scatter loop of particle p over the offsets offs *)
Fixpoint scatter (p : Particle) (offs : list (nat * nat)) (g : Grid) : option Grid :=
  match offs with
  | [] => Some g
  | (i, j) :: rest =>
      let offset := offset_of i j in
      let dpos := vscale_r (vsub (cast_float offset) (fx_of p)) dx in
      let weight := weight_of p i j in
      g' <- grid_add g (iadd (base_of p) offset)
              (vscale weight (vadd (vscale p_mass (v p)) (mvec (affine p) dpos)))
              (weight * p_mass) ;;
      scatter p rest g'
  end.

Fixpoint P2G (g : Grid) (ps : list Particle) : option (Grid * list Particle) :=
  match ps with
  | [] => Some (g, [])
  | p :: rest =>
      g' <- scatter p ndrange33 g ;;
      ' (g'', rest') <- P2G g' rest ;;
      Some (g'', p2g_particle p :: rest')
  end.

(** *** Grid update *)

(* if grid_m[i, j] > 0: momentum to velocity, then gravity *)
Definition update_node (nd : Node) : Node :=
  if Rlt_dec 0 (grid_m nd) then
    let v1 := vscale (1 / grid_m nd) (grid_v nd) in
    {| grid_v := vec2 (vx v1) (vy v1 - dt c * gravity c); grid_m := grid_m nd |}
  else nd.

Definition update_gridv (g : Grid) : Grid := map_nodes (fun _ _ => update_node) g.

(* the four wall tests, in order *)
Definition boundary_node (i j : Z) (nd : Node) : Node :=
  let u := grid_v nd in
  let u := if (i <? 3)%Z && (if Rlt_dec (vx u) 0 then true else false)
           then vec2 0 (vy u) else u in
  let u := if (i >? n_grid c - 3)%Z && (if Rlt_dec 0 (vx u) then true else false)
           then vec2 0 (vy u) else u in
  let u := if (j <? 3)%Z && (if Rlt_dec (vy u) 0 then true else false)
           then vec2 (vx u) 0 else u in
  let u := if (j >? n_grid c - 3)%Z && (if Rlt_dec 0 (vy u) then true else false)
           then vec2 (vx u) 0 else u in
  {| grid_v := u; grid_m := grid_m nd |}.

Definition enforce_boundary (g : Grid) : Grid := map_nodes boundary_node g.

(* the two grid stages of a substep *)
Definition GridUpdate (g : Grid) : Grid := enforce_boundary (update_gridv g).

(** *** G2P *)

(* the 3x3 gather loop of particle p: accumulates (v_pic, C_pic) *)
Fixpoint gather (g : Grid) (p : Particle) (offs : list (nat * nat))
    (acc : Vec2 * Mat2) : option (Vec2 * Mat2) :=
  match offs with
  | [] => Some acc
  | (i, j) :: rest =>
      let dpos := vsub (cast_float (offset_of i j)) (fx_of p) in
      nd <- grid_get g (iadd (base_of p) (offset_of i j)) ;;
      let g_v := grid_v nd in
      let weight := weight_of p i j in
      gather g p rest
        (vadd (fst acc) (vscale weight g_v),
         madd (snd acc) (mscale (4 * inv_dx * weight) (outer_product g_v dpos)))
  end.

Definition g2p_particle (g : Grid) (p : Particle) : option Particle :=
  ' (v_pic, C_pic) <- gather g p ndrange33 (vzero, mzero) ;;
  Some {| x := vadd (x p) (vscale (dt c) v_pic); v := v_pic; C := C_pic;
          F := F p; material := material p; Jp := Jp p |}.

Fixpoint G2P (g : Grid) (ps : list Particle) : option (list Particle) :=
  match ps with
  | [] => Some []
  | p :: rest =>
      p' <- g2p_particle g p ;;
      rest' <- G2P g rest ;;
      Some (p' :: rest')
  end.

(** *** substep and the frame loop *)

(* for i, j in grid_m: grid_v[i, j] = [0, 0]; grid_m[i, j] = 0 *)
Definition clear_grid (g : Grid) : Grid := map_nodes (fun _ _ _ => node_zero) g.

Definition State : Type := Grid * list Particle.

Definition substep (st : State) : option State :=
  let g0 := clear_grid (fst st) in
  ' (g1, ps1) <- P2G g0 (snd st) ;;
  let g3 := enforce_boundary (update_gridv g1) in
  ps2 <- G2P g3 ps1 ;;
  Some (g3, ps2).

(* for s in range(n): substep() *)
Fixpoint substeps (n : nat) (st : State) : option State :=
  match n with
  | O => Some st
  | S k => st' <- substep st ;; substeps k st'
  end.

End Simulation.

(** ** An SVD that is exact on diagonal matrices with non-negative entries *)

Definition svd_diag (a : Mat2) : Mat2 * Mat2 * Mat2 :=
  (mident, mat2 (m00 a) 0 0 (m11 a), mident).

(** ** Conditions on particles *)

(* every node of the 3x3 neighbourhood of p is a node of the grid *)
Definition stencil_in_grid (c : Params) (p : Particle) : Prop :=
  forall i j : nat, In (i, j) ndrange33 ->
    in_grid c (iadd (base_of c p) (offset_of i j)) = true.

(* the position of p lies in [3 dx, 1 - 3 dx]^2 *)
Definition in_band (c : Params) (p : Particle) : Prop :=
  (3 * dx c <= vx (x p) <= 1 - 3 * dx c) /\
  (3 * dx c <= vy (x p) <= 1 - 3 * dx c).

(** ** Quantities used to state the properties *)

(* sum of the masses one particle adds over the offsets offs *)
Fixpoint scattered_mass (c : Params) (p : Particle) (offs : list (nat * nat)) : R :=
  match offs with
  | [] => 0
  | (i, j) :: rest => weight_of c p i j * p_mass c + scattered_mass c p rest
  end.

(* every node velocity (momentum) of the grid is zero *)
Definition still (g : Grid) : Prop := Forall (fun nd => grid_v nd = vzero) g.

(** ** Conditions on the SVD *)

(* the factors returned for every matrix are orthogonal, orthogonal and
   diagonal *)
Definition svd_orthogonal (svd : Mat2 -> Mat2 * Mat2 * Mat2) : Prop :=
  forall a : Mat2,
    orthogonal (fst (fst (svd a))) /\ orthogonal (snd (svd a)) /\
    diagonal (snd (fst (svd a))).

(* at the matrix a, svd returns a singular value decomposition of a *)
Definition svd_exact_at (svd : Mat2 -> Mat2 * Mat2 * Mat2) (a : Mat2) : Prop :=
  let U := fst (fst (svd a)) in
  let sig := snd (fst (svd a)) in
  let V := snd (svd a) in
  orthogonal U /\ orthogonal V /\ diagonal sig /\
  0 <= m00 sig /\ 0 <= m11 sig /\
  mmul (mmul U sig) (transpose V) = a.

(* both singular values returned for the updated F of p are non-zero *)
Definition sig_nonzero (c : Params) (svd : Mat2 -> Mat2 * Mat2 * Mat2)
    (p : Particle) : Prop :=
  m00 (snd (fst (svd (F_update c p)))) <> 0 /\
  m11 (snd (fst (svd (F_update c p)))) <> 0.

(** ** Concrete states used to exercise the statements *)

(* a grid of the source's shape whose every node carries unit mass and unit
   momentum along x *)
Definition drift_node : Node := {| grid_v := vec2 1 0; grid_m := 1 |}.
Definition drift_grid : Grid := repeat drift_node (Z.to_nat (128 * 128)).

(* the source's constants with gravity switched off *)
Definition rest_params : Params :=
  {| n_grid := 128; dt := 1e-4; gravity := 0; E := 0.1e4; nu := 0.2 |}.

(* a particle at the centre of the domain, as initialize() leaves one *)
Definition centre_particle (mat : Z) : Particle :=
  {| x := vec2 0.5 0.5; v := vzero; C := mzero; F := mident;
     material := mat; Jp := 1 |}.

(** ** Sums over the grid and over the particles *)

Definition grid_sum (f : Node -> R) (g : Grid) : R :=
  fold_right (fun nd acc => f nd + acc) 0 g.

(* sum of the node momenta grid_v before update_gridv *)
Definition total_momentum (g : Grid) : Vec2 :=
  vec2 (grid_sum (fun nd => vx (grid_v nd)) g)
       (grid_sum (fun nd => vy (grid_v nd)) g).

(* sum of p_mass * v[p] over the particles *)
Fixpoint particle_momentum (c : Params) (ps : list Particle) : Vec2 :=
  match ps with
  | [] => vzero
  | p :: rest => vadd (vscale (p_mass c) (v p)) (particle_momentum c rest)
  end.

(* the grid-space coordinates of p are at least half a cell *)
Definition beyond_half_cell (c : Params) (p : Particle) : Prop :=
  0.5 <= vx (x p) * inv_dx c /\ 0.5 <= vy (x p) * inv_dx c.

(* sum of the weights of p over the offsets offs *)
Fixpoint weight_sum (c : Params) (p : Particle) (offs : list (nat * nat)) : R :=
  match offs with
  | [] => 0
  | (i, j) :: rest => weight_of c p i j + weight_sum c p rest
  end.

(* every node of the 3x3 neighbourhood of p exists and satisfies P *)
Definition stencil_nodes (c : Params) (g : Grid) (p : Particle)
    (P : Node -> Prop) : Prop :=
  forall i j : nat, In (i, j) ndrange33 ->
    exists nd : Node,
      grid_get c g (iadd (base_of c p) (offset_of i j)) = Some nd /\ P nd.

(* a liquid particle at the centre of the domain moving to the right *)
Definition drifting_particle : Particle :=
  {| x := vec2 0.5 0.5; v := vec2 1 0; C := mzero; F := mident;
     material := 0; Jp := 1 |}.

(* sum of weight * dpos of p over the offsets offs, dpos as in G2P *)
Fixpoint weight_moment (c : Params) (p : Particle) (offs : list (nat * nat)) : Vec2 :=
  match offs with
  | [] => vzero
  | (i, j) :: rest =>
      vadd (vscale (weight_of c p i j)
              (vsub (cast_float (offset_of i j)) (fx_of c p)))
           (weight_moment c p rest)
  end.

(* what the two wall tests of one axis do to the velocity component a of a
   node with index i along that axis *)
Definition wall (n i : Z) (a : R) : R :=
  let a1 := if (i <? 3)%Z && (if Rlt_dec a 0 then true else false) then 0 else a in
  if (i >? n - 3)%Z && (if Rlt_dec 0 a1 then true else false) then 0 else a1.

(* the grid that P2G builds: the scatter loops of the particles, in order *)
Fixpoint scatter_all (c : Params) (svd : Mat2 -> Mat2 * Mat2 * Mat2)
    (ps : list Particle) (g : Grid) : option Grid :=
  match ps with
  | [] => Some g
  | p :: rest => g' <- scatter c svd p ndrange33 g ;; scatter_all c svd rest g'
  end.

(** ** Particles at rest under gravity *)

(* p is at rest, undeformed, inside the band and at least 4 cells above the
   floor *)
Definition rests_inside (c : Params) (p : Particle) : Prop :=
  v p = vzero /\ C p = mzero /\ F p = mident /\ in_band c p /\
  4 * dx c <= vy (x p).

(* p after one step of free fall from rest *)
Definition falling (c : Params) (p : Particle) : Particle :=
  {| x := vadd (x p) (vscale (dt c) (vec2 0 (- (dt c * gravity c))));
     v := vec2 0 (- (dt c * gravity c)); C := mzero; F := mident;
     material := material p; Jp := Jp p |}.

(** ** initialize *)

Definition n_particles : Z := 10000.

(* the iteration of initialize() for index i; rnd i k stands for the k-th
   call of ti.random() in that iteration.  C[i] is not assigned: the field
   keeps the zero it was allocated with. *)
Definition init_particle (np : Z) (rnd : Z -> nat -> R) (i : Z) : Particle :=
  if Rlt_dec (IZR i) (IZR np * 2 / 3) then
    {| x := vec2 (rnd i 0%nat * 0.3 + 0.35) (rnd i 1%nat * 0.3 + 0.05);
       v := vec2 0 0; C := mzero; F := mat2 1 0 0 1; material := 0; Jp := 1 |}
  else if Rlt_dec (IZR i) (IZR np * 5 / 6) then
    {| x := vec2 (rnd i 0%nat * 0.15 + 0.3) (rnd i 1%nat * 0.15 + 0.45);
       v := vec2 0 0; C := mzero; F := mat2 1 0 0 1; material := 1; Jp := 1 |}
  else
    {| x := vec2 (rnd i 0%nat * 0.15 + 0.55) (rnd i 1%nat * 0.15 + 0.6);
       v := vec2 0 0; C := mzero; F := mat2 1 0 0 1; material := 2; Jp := 1 |}.

(* for i in range(n_particles) *)
Definition initialize (np : Z) (rnd : Z -> nat -> R) : list Particle :=
  map (fun k => init_particle np rnd (Z.of_nat k)) (seq 0 (Z.to_nat np)).

(* ti.random() returns a float in [0, 1) *)
Definition unit_random (rnd : Z -> nat -> R) : Prop :=
  forall (i : Z) (k : nat), 0 <= rnd i k < 1.

(* the region of the domain that initialize() gives to each material *)
Definition in_material_region (p : Particle) : Prop :=
  (material p = 0%Z /\ 0.35 <= vx (x p) < 0.65 /\ 0.05 <= vy (x p) < 0.35) \/
  (material p = 1%Z /\ 0.3 <= vx (x p) < 0.45 /\ 0.45 <= vy (x p) < 0.6) \/
  (material p = 2%Z /\ 0.55 <= vx (x p) < 0.7 /\ 0.6 <= vy (x p) < 0.75).

(** ** Reading G2P off given node velocities *)

(* the accumulation of the gather loop when node base + (i, j) carries the
   velocity val i j *)
Fixpoint gather_values (c : Params) (p : Particle) (val : nat -> nat -> Vec2)
    (offs : list (nat * nat)) (acc : Vec2 * Mat2) : Vec2 * Mat2 :=
  match offs with
  | [] => acc
  | (i, j) :: rest =>
      gather_values c p val rest
        (vadd (fst acc) (vscale (weight_of c p i j) (val i j)),
         madd (snd acc)
           (mscale (4 * inv_dx c * weight_of c p i j)
              (outer_product (val i j)
                 (vsub (cast_float (offset_of i j)) (fx_of c p)))))
  end.

(* sum of weight * dpos dpos^T of p over the offsets offs, dpos as in G2P *)
Fixpoint weight_second_moment (c : Params) (p : Particle)
    (offs : list (nat * nat)) : Mat2 :=
  match offs with
  | [] => mzero
  | (i, j) :: rest =>
      madd (mscale (weight_of c p i j)
              (outer_product (vsub (cast_float (offset_of i j)) (fx_of c p))
                 (vsub (cast_float (offset_of i j)) (fx_of c p))))
           (weight_second_moment c p rest)
  end.

(** ** Particles moving together *)

(* p moves with velocity v0, undeformed, at least 4 cells from every edge *)
Definition moves_inside (c : Params) (v0 : Vec2) (p : Particle) : Prop :=
  v p = v0 /\ C p = mzero /\ F p = mident /\
  (4 * dx c <= vx (x p) <= 1 - 4 * dx c) /\
  (4 * dx c <= vy (x p) <= 1 - 4 * dx c).

(* p after one substep of motion with velocity u *)
Definition moved (c : Params) (u : Vec2) (p : Particle) : Particle :=
  {| x := vadd (x p) (vscale (dt c) u); v := u; C := mzero; F := mident;
     material := material p; Jp := Jp p |}.

(* p after n substeps of motion under gravity alone *)
Fixpoint ballistic (c : Params) (n : nat) (p : Particle) : Particle :=
  match n with
  | O => p
  | S k =>
      let q := ballistic c k p in
      moved c (vec2 (vx (v q)) (vy (v q) - dt c * gravity c)) q
  end.

(* the position of p is at least 4 cells from every edge *)
Definition four_cells_inside (c : Params) (p : Particle) : Prop :=
  (4 * dx c <= vx (x p) <= 1 - 4 * dx c) /\
  (4 * dx c <= vy (x p) <= 1 - 4 * dx c).

(** * Properties *)

(** C5: the three quadratic B-spline weights of an axis sum to 1 for every
    fractional offset f (in particular for f in [0.5, 1.5)). *)
Theorem bspline_weights_sum_one :
  forall f : R, w0 f + w1 f + w2 f = 1.
Proof.
  intro f. unfold w0, w1, w2. lra.
Qed.

(** ** Lists and the flat grid *)

Lemma set_nth_length {A : Type} (k : nat) (a : A) (l : list A) :
  length (set_nth k a l) = length l.
Proof.
  revert k; induction l as [|h t IH]; intros [|k]; simpl; auto.
Qed.

Lemma nth_error_set_nth_same {A : Type} (k : nat) (a : A) (l : list A) :
  (k < length l)%nat -> nth_error (set_nth k a l) k = Some a.
Proof.
  revert k; induction l as [|h t IH]; intros [|k] Hk; simpl in *; try lia; auto.
  apply IH; lia.
Qed.

Lemma nth_error_set_nth_other {A : Type} (k m : nat) (a : A) (l : list A) :
  k <> m -> nth_error (set_nth k a l) m = nth_error l m.
Proof.
  revert k m; induction l as [|h t IH]; intros [|k] [|m] Hkm; simpl; auto;
    congruence.
Qed.

Lemma total_mass_set_nth (g : Grid) (k : nat) (nd nd' : Node) :
  nth_error g k = Some nd ->
  total_mass (set_nth k nd' g) = total_mass g - grid_m nd + grid_m nd'.
Proof.
  revert k; induction g as [|h t IH]; intros [|k] Hk; simpl in *; try discriminate.
  - injection Hk as ->. lra.
  - rewrite (IH _ Hk). lra.
Qed.

Lemma nth_error_map_nodes_from c (f : Z -> Z -> Node -> Node) (g : Grid) :
  forall k m,
    nth_error (map_nodes_from c k f g) m =
    option_map (f (Z.of_nat (k + m) / n_grid c)%Z (Z.of_nat (k + m) mod n_grid c)%Z)
      (nth_error g m).
Proof.
  induction g as [|h t IH]; intros k [|m]; simpl; auto.
  - rewrite Nat.add_0_r. reflexivity.
  - rewrite IH. rewrite Nat.add_succ_r. reflexivity.
Qed.

Lemma map_nodes_from_length c f (g : Grid) :
  forall k, length (map_nodes_from c k f g) = length g.
Proof.
  induction g as [|h t IH]; intro k; simpl; auto.
Qed.

Lemma map_nodes_from_const c (z : Node) (g1 : Grid) :
  forall (g2 : Grid) k, length g1 = length g2 ->
    map_nodes_from c k (fun _ _ _ => z) g1 = map_nodes_from c k (fun _ _ _ => z) g2.
Proof.
  induction g1 as [|h t IH]; intros [|h2 t2] k Hlen; simpl in *; try discriminate; auto.
  f_equal. apply IH. lia.
Qed.

Lemma in_grid_spec c (I : IVec2) :
  in_grid c I = true <->
  (0 <= ix I < n_grid c)%Z /\ (0 <= iy I < n_grid c)%Z.
Proof.
  unfold in_grid. rewrite !andb_true_iff, !Z.leb_le, !Z.ltb_lt. lia.
Qed.

Lemma flat_decompose c (I : IVec2) :
  in_grid c I = true ->
  (Z.of_nat (flat c I) / n_grid c = ix I)%Z /\
  (Z.of_nat (flat c I) mod n_grid c = iy I)%Z.
Proof.
  intro H. apply in_grid_spec in H. destruct H as [Hi Hj].
  unfold flat. rewrite Z2Nat.id by nia.
  split; symmetry.
  - apply Z.div_unique with (r := iy I); [lia | ring].
  - apply Z.mod_unique with (q := ix I); [lia | ring].
Qed.

Lemma flat_in_shape c (g : Grid) (I : IVec2) :
  grid_shape c g -> in_grid c I = true -> (flat c I < length g)%nat.
Proof.
  intros Hs H. apply in_grid_spec in H. destruct H as [Hi Hj].
  unfold grid_shape in Hs. rewrite Hs. unfold flat.
  apply Z2Nat.inj_lt; nia.
Qed.

Lemma grid_get_in_shape c (g : Grid) (I : IVec2) :
  grid_shape c g -> in_grid c I = true -> exists nd, grid_get c g I = Some nd.
Proof.
  intros Hs H. unfold grid_get. rewrite H.
  destruct (nth_error g (flat c I)) as [nd|] eqn:Hn; eauto.
  apply nth_error_None in Hn. pose proof (flat_in_shape c g I Hs H). lia.
Qed.

Lemma grid_get_map_nodes c f (g : Grid) (I : IVec2) :
  grid_get c (map_nodes c f g) I = option_map (f (ix I) (iy I)) (grid_get c g I).
Proof.
  unfold grid_get, map_nodes. destruct (in_grid c I) eqn:H; auto.
  rewrite nth_error_map_nodes_from. simpl.
  destruct (flat_decompose c I H) as [-> ->]. reflexivity.
Qed.

Lemma map_nodes_shape c f (g : Grid) :
  grid_shape c g -> grid_shape c (map_nodes c f g).
Proof.
  unfold grid_shape, map_nodes. now rewrite map_nodes_from_length.
Qed.

Lemma total_mass_clear_from c (g : Grid) :
  forall k, total_mass (map_nodes_from c k (fun _ _ _ => node_zero) g) = 0.
Proof.
  induction g as [|h t IH]; intro k; simpl; auto.
  rewrite IH. lra.
Qed.

Lemma grid_add_ok c (g : Grid) (I : IVec2) (dv : Vec2) (dm : R) :
  grid_shape c g -> in_grid c I = true ->
  exists g', grid_add c g I dv dm = Some g' /\ grid_shape c g' /\
             total_mass g' = total_mass g + dm.
Proof.
  intros Hs H. destruct (grid_get_in_shape c g I Hs H) as [nd Hnd].
  unfold grid_add. rewrite Hnd. simpl. eexists; split; [reflexivity|]. split.
  - unfold grid_shape. now rewrite set_nth_length.
  - unfold grid_get in Hnd. rewrite H in Hnd.
    rewrite (total_mass_set_nth _ _ _ _ Hnd). simpl. lra.
Qed.

(** ** Grid update *)

(** C4: in [update_gridv] a node of strictly positive mass gets momentum
    divided by mass, then dt * gravity taken off the y component; a node whose
    mass is not strictly positive is left as it is (no division is
    evaluated), so a velocity that was cleared to zero stays zero.  The stage
    is a total function: a zero-mass node is no error. *)
Theorem update_gridv_node :
  forall (c : Params) (g : Grid) (I : IVec2) (nd : Node),
    grid_get c g I = Some nd ->
    exists nd',
      grid_get c (update_gridv c g) I = Some nd' /\
      grid_m nd' = grid_m nd /\
      (0 < grid_m nd ->
       grid_v nd' = vec2 (vx (grid_v nd) / grid_m nd)
                         (vy (grid_v nd) / grid_m nd - dt c * gravity c)) /\
      (~ 0 < grid_m nd ->
       nd' = nd /\ (grid_v nd = vzero -> grid_v nd' = vzero)).
Proof.
  intros c g I nd Hnd. unfold update_gridv.
  rewrite grid_get_map_nodes, Hnd. simpl.
  exists (update_node c nd). split; [reflexivity|].
  unfold update_node. destruct (Rlt_dec 0 (grid_m nd)) as [Hpos|Hnpos]; simpl.
  - split; [reflexivity|]. split; [|intro; contradiction].
    intros _. f_equal; field; lra.
  - split; [reflexivity|]. split; [intro; contradiction|].
    intros _. split; auto.
Qed.

Lemma boundary_node_walls c (i j : Z) (nd : Node) :
  ((i < 3)%Z -> 0 <= vx (grid_v (boundary_node c i j nd))) /\
  ((i > n_grid c - 3)%Z -> vx (grid_v (boundary_node c i j nd)) <= 0) /\
  ((j < 3)%Z -> 0 <= vy (grid_v (boundary_node c i j nd))) /\
  ((j > n_grid c - 3)%Z -> vy (grid_v (boundary_node c i j nd)) <= 0).
Proof.
  destruct nd as [[a b] m]. unfold boundary_node. cbv zeta. simpl grid_v.
  destruct (i <? 3)%Z eqn:Hi1; destruct (i >? n_grid c - 3)%Z eqn:Hi2;
  destruct (j <? 3)%Z eqn:Hj1; destruct (j >? n_grid c - 3)%Z eqn:Hj2;
  simpl;
  repeat match goal with
  | |- context [Rlt_dec ?u ?w] => destruct (Rlt_dec u w); simpl in *
  | H : context [Rlt_dec ?u ?w] |- _ => destruct (Rlt_dec u w); simpl in *
  end;
  rewrite ?Z.ltb_lt, ?Z.ltb_ge in *;
  try (apply Z.gtb_ltb in Hi2; rewrite ?Z.ltb_lt, ?Z.ltb_ge in Hi2);
  try (apply Z.gtb_ltb in Hj2; rewrite ?Z.ltb_lt, ?Z.ltb_ge in Hj2);
  repeat split; intros; simpl in *; try lra; try lia.
Qed.

(** C2 (as the code has it): after the two grid stages, a node in one of the
    three lowest rows or columns (index < 3) has no negative component along
    that axis, and a node in one of the two highest rows or columns
    (index > n_grid - 3) has no positive component along that axis. *)
Theorem grid_update_boundary :
  forall (c : Params) (g : Grid) (I : IVec2) (nd : Node),
    grid_get c (GridUpdate c g) I = Some nd ->
    ((ix I < 3)%Z -> 0 <= vx (grid_v nd)) /\
    ((ix I > n_grid c - 3)%Z -> vx (grid_v nd) <= 0) /\
    ((iy I < 3)%Z -> 0 <= vy (grid_v nd)) /\
    ((iy I > n_grid c - 3)%Z -> vy (grid_v nd) <= 0).
Proof.
  intros c g I nd H. unfold GridUpdate, enforce_boundary in H.
  rewrite grid_get_map_nodes in H.
  destruct (grid_get c (update_gridv c g) I) as [nd0|]; simpl in H; [|discriminate].
  injection H as <-. apply boundary_node_walls.
Qed.

Lemma drift_grid_shape : grid_shape source_params drift_grid.
Proof. unfold grid_shape, drift_grid. apply repeat_length. Qed.

Lemma drift_grid_get (I : IVec2) :
  in_grid source_params I = true ->
  grid_get source_params drift_grid I = Some drift_node.
Proof.
  intro H. pose proof (flat_in_shape _ _ _ drift_grid_shape H) as Hlt.
  unfold grid_get. rewrite H. unfold drift_grid in *.
  rewrite repeat_length in Hlt. now apply nth_error_repeat.
Qed.

Lemma drift_grid_update_get (I : IVec2) :
  in_grid source_params I = true ->
  grid_get source_params (GridUpdate source_params drift_grid) I =
  Some (boundary_node source_params (ix I) (iy I)
          (update_node source_params drift_node)).
Proof.
  intro H. unfold GridUpdate, enforce_boundary, update_gridv.
  rewrite !grid_get_map_nodes, (drift_grid_get I H). reflexivity.
Qed.

Lemma grid_update_boundary_witness :
  0 <= vx (grid_v (boundary_node source_params 1 5
                     (update_node source_params drift_node))).
Proof.
  refine (proj1 (grid_update_boundary source_params drift_grid (ivec2 1 5) _
                   (drift_grid_update_get (ivec2 1 5) eq_refl)) _).
  simpl. lia.
Defined.

(** C2 fails as stated: at row n_grid - 3 = 125 of the drifting grid the
    x-velocity after the grid stages is 1, which points outward. *)
Lemma boundary_row_n_minus_3_counterexample :
  exists nd : Node,
    grid_get source_params (GridUpdate source_params drift_grid)
      (ivec2 (n_grid source_params - 3) 5) = Some nd /\
    vx (grid_v nd) = 1 /\ ~ vx (grid_v nd) <= 0.
Proof.
  eexists. split.
  - apply (drift_grid_update_get (ivec2 125 5)). reflexivity.
  - unfold boundary_node, update_node, drift_node. simpl.
    destruct (Rlt_dec 0 1) as [_|Hn]; [|lra]. simpl.
    assert (Hx : 1 / 1 * 1 = 1) by lra. rewrite Hx.
    destruct (Rlt_dec 0 1) as [_|Hn]; [|lra].
    split; lra.
Qed.

(** ** P2G: scatter and mass *)

Lemma scatter_ok c svd (p : Particle) (offs : list (nat * nat)) :
  forall g : Grid,
    grid_shape c g ->
    (forall i j, In (i, j) offs ->
       in_grid c (iadd (base_of c p) (offset_of i j)) = true) ->
    exists g', scatter c svd p offs g = Some g' /\ grid_shape c g' /\
               total_mass g' = total_mass g + scattered_mass c p offs.
Proof.
  induction offs as [|[i j] rest IH]; intros g Hs Hin; simpl.
  - exists g. repeat split; auto. lra.
  - edestruct (grid_add_ok c g (iadd (base_of c p) (offset_of i j))) as (g1 & -> & Hs1 & Hm1);
      [exact Hs | apply Hin; now left |].
    simpl. destruct (IH g1 Hs1) as (g2 & Hg2 & Hs2 & Hm2).
    { intros i' j' H'. apply Hin. now right. }
    exists g2. repeat split; auto. rewrite Hm2, Hm1. lra.
Qed.

Lemma scattered_mass_stencil c (p : Particle) :
  scattered_mass c p ndrange33 = p_mass c.
Proof.
  unfold scattered_mass, ndrange33, weight_of, bspline. simpl nth. simpl vx. simpl vy.
  generalize (vx (fx_of c p)) (vy (fx_of c p)) (p_mass c). intros a b m.
  unfold w0, w1, w2. lra.
Qed.

Lemma P2G_ok c svd (ps : list Particle) :
  forall g : Grid,
    grid_shape c g -> Forall (stencil_in_grid c) ps ->
    exists g', P2G c svd g ps = Some (g', map (p2g_particle c svd) ps) /\
               grid_shape c g' /\
               total_mass g' = total_mass g + INR (length ps) * p_mass c.
Proof.
  induction ps as [|p rest IH]; intros g Hs Hall.
  - exists g. simpl. repeat split; auto. lra.
  - inversion Hall as [|? ? Hp Hrest]; subst.
    destruct (scatter_ok c svd p ndrange33 g Hs Hp) as (g1 & Hg1 & Hs1 & Hm1).
    destruct (IH g1 Hs1 Hrest) as (g2 & Hg2 & Hs2 & Hm2).
    exists g2. split; [|split; auto].
    + cbn [P2G]. rewrite Hg1. cbn [bind]. rewrite Hg2. reflexivity.
    + rewrite Hm2, Hm1, scattered_mass_stencil.
      change (length (p :: rest)) with (S (length rest)). rewrite S_INR. lra.
Qed.

Lemma clear_grid_shape c (g : Grid) : grid_shape c g -> grid_shape c (clear_grid c g).
Proof. apply map_nodes_shape. Qed.

Lemma clear_grid_mass c (g : Grid) : total_mass (clear_grid c g) = 0.
Proof. apply total_mass_clear_from. Qed.

(** C1: when the 3x3 neighbourhood of every particle lies inside the grid,
    P2G on the cleared grid succeeds and the masses of the grid nodes sum to
    the number of particles times p_mass. *)
Theorem p2g_mass_conservation :
  forall (c : Params) (svd : Mat2 -> Mat2 * Mat2 * Mat2) (g : Grid)
         (ps : list Particle),
    grid_shape c g ->
    Forall (stencil_in_grid c) ps ->
    exists (g' : Grid) (ps' : list Particle),
      P2G c svd (clear_grid c g) ps = Some (g', ps') /\
      total_mass g' = INR (length ps) * p_mass c.
Proof.
  intros c svd g ps Hs Hall.
  destruct (P2G_ok c svd ps (clear_grid c g) (clear_grid_shape c g Hs) Hall)
    as (g' & Hg' & _ & Hm).
  exists g', (map (p2g_particle c svd) ps). split; [exact Hg'|].
  rewrite Hm, clear_grid_mass. lra.
Qed.

Lemma centre_in_band (mat : Z) : in_band source_params (centre_particle mat).
Proof. unfold in_band, dx. simpl. lra. Qed.

(** ** Index safety *)

Lemma cast_int_floor (r : R) :
  0 <= r -> IZR (cast_int r) <= r < IZR (cast_int r) + 1.
Proof.
  intro Hr. unfold cast_int. destruct (Rle_dec 0 r) as [_|Hn]; [|contradiction].
  destruct (base_Int_part r) as [H1 H2]. lra.
Qed.

Lemma cast_int_between (r : R) (n : Z) :
  2.5 <= r <= IZR n - 3.5 -> (2 <= cast_int r <= n - 4)%Z.
Proof.
  intros [Hlo Hhi]. destruct (cast_int_floor r) as [H1 H2]; [lra|]. split.
  - assert (H : (1 < cast_int r)%Z) by (apply lt_IZR; lra). lia.
  - assert (H : (cast_int r < n - 3)%Z) by (apply lt_IZR; rewrite minus_IZR; lra). lia.
Qed.

Lemma band_coordinate c (a : R) :
  (0 < n_grid c)%Z -> 3 * dx c <= a <= 1 - 3 * dx c ->
  2.5 <= a * inv_dx c - 0.5 <= IZR (n_grid c) - 3.5.
Proof.
  intros Hn [Hlo Hhi]. unfold dx, inv_dx in *.
  assert (HN : 0 < IZR (n_grid c)) by (apply (IZR_lt 0); exact Hn).
  set (N := IZR (n_grid c)) in *.
  assert (Hd : 1 / N * N = 1) by (field; lra).
  set (d := 1 / N) in *. split; nra.
Qed.

(* the fractional offset of a coordinate at or beyond half a cell *)
Lemma fx_coordinate_range (r : R) :
  0 <= r - 0.5 -> 0.5 <= r - IZR (cast_int (r - 0.5)) < 1.5.
Proof.
  intro H. destruct (cast_int_floor (r - 0.5) H) as [H1 H2]. lra.
Qed.

Lemma base_in_band c (p : Particle) :
  (0 < n_grid c)%Z -> in_band c p ->
  (2 <= ix (base_of c p) <= n_grid c - 4)%Z /\
  (2 <= iy (base_of c p) <= n_grid c - 4)%Z.
Proof.
  intros Hn [Hx Hy]. unfold base_of, vcast_int, vsub_s, vscale_r. simpl.
  split; apply cast_int_between; apply band_coordinate; auto.
Qed.

Lemma stencil_of_base c (p : Particle) :
  (0 <= ix (base_of c p) <= n_grid c - 3)%Z ->
  (0 <= iy (base_of c p) <= n_grid c - 3)%Z ->
  stencil_in_grid c p.
Proof.
  unfold stencil_in_grid. generalize (base_of c p). intros [bx b_y] Hx Hy i j Hin.
  apply in_grid_spec. unfold ndrange33 in Hin. simpl in *.
  repeat (destruct Hin as [Hin|Hin]; [injection Hin as <- <-; simpl; lia|]).
  contradiction.
Qed.

Lemma band_stencil c (p : Particle) :
  (0 < n_grid c)%Z -> in_band c p -> stencil_in_grid c p.
Proof.
  intros Hn Hb. destruct (base_in_band c p Hn Hb) as [Hx Hy].
  apply stencil_of_base; lia.
Qed.

Lemma gather_ok c (g : Grid) (p : Particle) (offs : list (nat * nat)) :
  grid_shape c g ->
  (forall i j, In (i, j) offs ->
     in_grid c (iadd (base_of c p) (offset_of i j)) = true) ->
  forall acc, exists r, gather c g p offs acc = Some r.
Proof.
  intros Hs. induction offs as [|[i j] rest IH]; intros Hin acc; simpl.
  - eauto.
  - destruct (grid_get_in_shape c g (iadd (base_of c p) (offset_of i j)) Hs)
      as [nd ->]; [apply Hin; now left|].
    simpl. apply IH. intros i' j' H'. apply Hin. now right.
Qed.

Lemma G2P_ok c (g : Grid) (ps : list Particle) :
  grid_shape c g -> Forall (stencil_in_grid c) ps ->
  exists ps', G2P c g ps = Some ps'.
Proof.
  intros Hs. induction ps as [|p rest IH]; intro Hall; simpl.
  - eauto.
  - inversion Hall as [|? ? Hp Hrest]; subst.
    unfold g2p_particle.
    destruct (gather_ok c g p ndrange33 Hs Hp (vzero, mzero)) as [[v_pic C_pic] ->].
    simpl. destruct (IH Hrest) as [ps' ->]. simpl. eauto.
Qed.

(** C10: if every particle lies in the band [3 dx, 1 - 3 dx]^2, then every
    base cell lies in [2, n_grid - 4]^2, every node base + offset of the 3x3
    loops is a node of the grid, and neither P2G nor G2P leaves the grid. *)
Theorem band_indexing_safe :
  forall (c : Params) (svd : Mat2 -> Mat2 * Mat2 * Mat2) (g : Grid)
         (ps : list Particle),
    (0 < n_grid c)%Z ->
    grid_shape c g ->
    Forall (in_band c) ps ->
    Forall (fun p =>
              (2 <= ix (base_of c p) <= n_grid c - 4)%Z /\
              (2 <= iy (base_of c p) <= n_grid c - 4)%Z /\
              forall i j : nat, In (i, j) ndrange33 ->
                (0 <= ix (iadd (base_of c p) (offset_of i j)) <= n_grid c - 1)%Z /\
                (0 <= iy (iadd (base_of c p) (offset_of i j)) <= n_grid c - 1)%Z) ps /\
    (exists g' ps', P2G c svd g ps = Some (g', ps')) /\
    (exists ps', G2P c g ps = Some ps').
Proof.
  intros c svd g ps Hn Hs Hall.
  assert (Hst : Forall (stencil_in_grid c) ps).
  { eapply Forall_impl; [|exact Hall]. intros p Hp. now apply band_stencil. }
  split; [|split].
  - rewrite Forall_forall in *. intros p Hp.
    destruct (base_in_band c p Hn (Hall p Hp)) as [Hx Hy].
    split; [exact Hx|]. split; [exact Hy|].
    intros i j Hin. pose proof (Hst p Hp i j Hin) as H.
    apply in_grid_spec in H. lia.
  - destruct (P2G_ok c svd ps g Hs Hst) as (g' & Hg' & _). eauto.
  - now apply G2P_ok.
Qed.

Lemma band_indexing_safe_witness :
  Forall (fun p =>
            (2 <= ix (base_of source_params p) <= 128 - 4)%Z /\
            (2 <= iy (base_of source_params p) <= 128 - 4)%Z /\
            forall i j : nat, In (i, j) ndrange33 ->
              (0 <= ix (iadd (base_of source_params p) (offset_of i j)) <= 128 - 1)%Z /\
              (0 <= iy (iadd (base_of source_params p) (offset_of i j)) <= 128 - 1)%Z)
    [centre_particle 2] /\
  (exists g' ps', P2G source_params svd_diag drift_grid [centre_particle 2] = Some (g', ps')) /\
  (exists ps', G2P source_params drift_grid [centre_particle 2] = Some ps').
Proof.
  apply (band_indexing_safe source_params svd_diag drift_grid [centre_particle 2]).
  - simpl. lia.
  - exact drift_grid_shape.
  - constructor; [apply centre_in_band | constructor].
Defined.

Lemma p2g_mass_conservation_witness :
  exists (g' : Grid) (ps' : list Particle),
    P2G source_params svd_diag (clear_grid source_params drift_grid)
      [centre_particle 0; centre_particle 1] = Some (g', ps') /\
    total_mass g' = INR 2 * p_mass source_params.
Proof.
  apply (p2g_mass_conservation source_params svd_diag drift_grid
           [centre_particle 0; centre_particle 1]).
  - exact drift_grid_shape.
  - repeat constructor; apply band_stencil; try apply centre_in_band; simpl; lia.
Defined.

(** ** The grid carries no state across substeps *)

(** C8: for any two grids of the field's shape, [substep] from the same
    particles gives the same result (the same final particles and the same
    final grid): the old grid contents are overwritten with zeros before P2G
    runs. *)
Theorem substep_ignores_old_grid :
  forall (c : Params) (svd : Mat2 -> Mat2 * Mat2 * Mat2) (g1 g2 : Grid)
         (ps : list Particle),
    grid_shape c g1 -> grid_shape c g2 ->
    substep c svd (g1, ps) = substep c svd (g2, ps).
Proof.
  intros c svd g1 g2 ps H1 H2. unfold substep. simpl fst. simpl snd.
  assert (Hc : clear_grid c g1 = clear_grid c g2).
  { unfold clear_grid, map_nodes. apply map_nodes_from_const.
    unfold grid_shape in *. congruence. }
  rewrite Hc. reflexivity.
Qed.

Lemma substep_ignores_old_grid_witness :
  substep source_params svd_diag (drift_grid, [centre_particle 1]) =
  substep source_params svd_diag
    (clear_grid source_params drift_grid, [centre_particle 1]).
Proof.
  apply (substep_ignores_old_grid source_params svd_diag).
  - exact drift_grid_shape.
  - apply clear_grid_shape. exact drift_grid_shape.
Defined.

(** ** Algebra of 2x2 matrices *)

Ltac mat_unfold :=
  unfold orthogonal, diagonal, deviatoric, trace, det, mmul, madd, msub, mscale,
    mscale_r, transpose, mident, mzero, mvec, outer_product, vadd, vsub,
    vscale, vscale_r, vzero in *; simpl in *.

Ltac mat_ring := intros; mat_unfold; f_equal; ring.

Lemma mat2_eta (a : Mat2) : a = mat2 (m00 a) (m01 a) (m10 a) (m11 a).
Proof. now destruct a. Qed.

Lemma mat2_inj (a b c d a' b' c' d' : R) :
  mat2 a b c d = mat2 a' b' c' d' -> a = a' /\ b = b' /\ c = c' /\ d = d'.
Proof. intro H. now injection H. Qed.

Lemma mmul_assoc (a b c : Mat2) : mmul (mmul a b) c = mmul a (mmul b c).
Proof. mat_ring. Qed.

Lemma mmul_ident_l (a : Mat2) : mmul mident a = a.
Proof. destruct a. mat_ring. Qed.

Lemma mmul_ident_r (a : Mat2) : mmul a mident = a.
Proof. destruct a. mat_ring. Qed.

Lemma transpose_mmul (a b : Mat2) :
  transpose (mmul a b) = mmul (transpose b) (transpose a).
Proof. mat_ring. Qed.

Lemma transpose_involutive (a : Mat2) : transpose (transpose a) = a.
Proof. now destruct a. Qed.

Lemma mmul_msub_r (a b c : Mat2) : mmul a (msub b c) = msub (mmul a b) (mmul a c).
Proof. mat_ring. Qed.

Lemma mmul_msub_l (a b c : Mat2) : mmul (msub a b) c = msub (mmul a c) (mmul b c).
Proof. mat_ring. Qed.

Lemma mmul_mscale_ident (s : R) (a : Mat2) :
  mmul a (mscale s mident) = mscale s a.
Proof. mat_ring. Qed.

Lemma mmul_mscale_l (s : R) (a b : Mat2) :
  mmul (mscale s a) b = mscale s (mmul a b).
Proof. mat_ring. Qed.

Lemma det_mmul (a b : Mat2) : det (mmul a b) = det a * det b.
Proof. mat_unfold. ring. Qed.

Lemma det_transpose (a : Mat2) : det (transpose a) = det a.
Proof. mat_unfold. ring. Qed.

Lemma det_orthogonal_sq (a : Mat2) : orthogonal a -> det a * det a = 1.
Proof.
  intros [_ H]. apply (f_equal det) in H.
  rewrite det_mmul, det_transpose in H. rewrite H. mat_unfold. ring.
Qed.

(* the Gram matrix of U D V^T is V D^T D V^T when U is orthogonal *)
Lemma gram_of_factors (U D V : Mat2) :
  orthogonal U ->
  mmul (transpose (mmul (mmul U D) (transpose V))) (mmul (mmul U D) (transpose V)) =
  mmul (mmul V (mmul (transpose D) D)) (transpose V).
Proof.
  intros [HU _].
  rewrite !transpose_mmul, transpose_involutive, !mmul_assoc.
  rewrite <- (mmul_assoc (transpose U) U), HU, mmul_ident_l.
  reflexivity.
Qed.

Lemma conj_shift (V X : Mat2) (t : R) :
  orthogonal V ->
  msub (mmul (mmul V X) (transpose V)) (mscale t mident) =
  mmul (mmul V (msub X (mscale t mident))) (transpose V).
Proof.
  intros [_ HV].
  rewrite mmul_msub_r, mmul_msub_l, mmul_mscale_ident, mmul_mscale_l, HV.
  reflexivity.
Qed.

(* the singular values of U diag(a, b) V^T, for orthogonal U and V and
   positive a and b, are a and b *)
Lemma singular_values_of_factors (U V : Mat2) (a b s : R) :
  orthogonal U -> orthogonal V -> 0 < a -> 0 < b ->
  (singular_value (mmul (mmul U (mat2 a 0 0 b)) (transpose V)) s <->
   s = a \/ s = b).
Proof.
  intros HU HV Ha Hb. unfold singular_value.
  rewrite (gram_of_factors U _ V HU), (conj_shift V _ _ HV).
  rewrite !det_mmul, det_transpose.
  assert (Hdet : forall X, det V * det X * det V = det X).
  { intro X. replace (det V * det X * det V) with (det V * det V * det X) by ring.
    rewrite (det_orthogonal_sq V HV). ring. }
  rewrite Hdet. unfold det, msub, mmul, mscale, transpose, mident. simpl.
  split.
  - intros [Hs H].
    assert (H' : (a * a - s * s) * (b * b - s * s) = 0) by (rewrite <- H; ring).
    apply Rmult_integral in H'. destruct H' as [H'|H']; [left|right]; nra.
  - intros [->| ->]; split; try lra; ring.
Qed.

(** ** Constitutive model *)

Lemma clamp_sig_range (s : R) : 1 - 0.025 <= clamp_sig s <= 1 + 0.0045.
Proof.
  unfold clamp_sig. split.
  - apply Rmin_glb; [|lra]. eapply Rle_trans; [|apply Rmax_r]. lra.
  - eapply Rle_trans; [apply Rmin_r|]. lra.
Qed.

Lemma clamp_sig_fixed (s : R) : 1 - 0.025 <= s <= 1 + 0.0045 -> clamp_sig s = s.
Proof.
  intro H. unfold clamp_sig.
  rewrite (Rmax_left s) by lra. apply Rmin_left. lra.
Qed.

Lemma plasticity_unfold c svd (p : Particle) :
  let sig := svd_sig svd (F_update c p) in
  let n0 := if (material p =? 2)%Z then clamp_sig (m00 sig) else m00 sig in
  let n1 := if (material p =? 2)%Z then clamp_sig (m11 sig) else m11 sig in
  plasticity c svd p =
  (mat2 n0 (m01 sig) (m10 sig) n1,
   Jp p * (m00 sig / n0) * (m11 sig / n1),
   1 * n0 * n1).
Proof. reflexivity. Qed.

Lemma P2G_particles c svd (ps : list Particle) :
  forall (g g' : Grid) (ps' : list Particle),
    P2G c svd g ps = Some (g', ps') -> ps' = map (p2g_particle c svd) ps.
Proof.
  induction ps as [|p rest IH]; intros g g' ps' H; cbn [P2G] in H.
  - inversion H; subst. reflexivity.
  - destruct (scatter c svd p ndrange33 g) as [g1|]; cbn [bind] in H; [|discriminate].
    destruct (P2G c svd g1 rest) as [[g2 rest']|] eqn:Hr; cbn [bind] in H; [|discriminate].
    inversion H; subst. cbn [map]. f_equal. eapply IH; eauto.
Qed.

Lemma g2p_particle_keeps c (g : Grid) (p p' : Particle) :
  g2p_particle c g p = Some p' ->
  F p' = F p /\ Jp p' = Jp p /\ material p' = material p.
Proof.
  unfold g2p_particle. intro H.
  destruct (gather c g p ndrange33 (vzero, mzero)) as [[v_pic C_pic]|];
    simpl in H; [|discriminate].
  injection H as <-. simpl. auto.
Qed.

Lemma G2P_nth c (g : Grid) (ps : list Particle) :
  forall (ps' : list Particle) (k : nat),
    G2P c g ps = Some ps' ->
    (forall p', nth_error ps' k = Some p' ->
       exists p, nth_error ps k = Some p /\ g2p_particle c g p = Some p') /\
    (forall p, nth_error ps k = Some p ->
       exists p', nth_error ps' k = Some p' /\ g2p_particle c g p = Some p').
Proof.
  induction ps as [|q rest IH]; intros ps' k H; simpl in H.
  - injection H as <-. split; intros ? Hk; destruct k; discriminate.
  - destruct (g2p_particle c g q) as [q'|] eqn:Hq; simpl in H; [|discriminate].
    destruct (G2P c g rest) as [rest'|] eqn:Hr; simpl in H; [|discriminate].
    injection H as <-. destruct k as [|k]; simpl.
    + split; intros ? Hk; injection Hk as <-; eauto.
    + apply IH. reflexivity.
Qed.

(* what one substep does to F, Jp and material of the k-th particle *)
Lemma substep_nth c svd (st st' : State) (k : nat) :
  substep c svd st = Some st' ->
  (forall p', nth_error (snd st') k = Some p' ->
     exists p, nth_error (snd st) k = Some p /\
       F p' = F_new c svd p /\ Jp p' = Jp_new c svd p /\ material p' = material p) /\
  (forall p, nth_error (snd st) k = Some p ->
     exists p', nth_error (snd st') k = Some p' /\
       F p' = F_new c svd p /\ Jp p' = Jp_new c svd p /\ material p' = material p).
Proof.
  unfold substep. intro H.
  destruct (P2G c svd (clear_grid c (fst st)) (snd st)) as [[g1 ps1]|] eqn:HP;
    simpl in H; [|discriminate].
  destruct (G2P c (enforce_boundary c (update_gridv c g1)) ps1) as [ps2|] eqn:HG;
    simpl in H; [|discriminate].
  injection H as <-. simpl.
  apply P2G_particles in HP. subst ps1.
  destruct (G2P_nth c _ _ _ k HG) as [Hback Hfwd].
  split.
  - intros p' Hp'. destruct (Hback p' Hp') as (q & Hq & Hg).
    rewrite nth_error_map in Hq.
    destruct (nth_error (snd st) k) as [p|]; simpl in Hq; [|discriminate].
    injection Hq as <-. exists p. split; [reflexivity|].
    apply g2p_particle_keeps in Hg. simpl in Hg. exact Hg.
  - intros p Hp.
    destruct (Hfwd (p2g_particle c svd p)) as (p' & Hp' & Hg).
    { rewrite nth_error_map, Hp. reflexivity. }
    exists p'. split; [exact Hp'|].
    apply g2p_particle_keeps in Hg. simpl in Hg. exact Hg.
Qed.

Lemma substeps_snoc c svd (n : nat) :
  forall st : State,
    substeps c svd (S n) st = (st' <- substeps c svd n st ;; substep c svd st').
Proof.
  induction n as [|n IH]; intro st.
  - simpl. destruct (substep c svd st); reflexivity.
  - change (substeps c svd (S (S n)) st)
      with (st1 <- substep c svd st ;; substeps c svd (S n) st1).
    change (substeps c svd (S n) st)
      with (st1 <- substep c svd st ;; substeps c svd n st1).
    destruct (substep c svd st) as [st1|]; simpl; [apply IH | reflexivity].
Qed.

(** C6: for a Fluid particle the deformation gradient written by P2G is
    sqrt(J) * I, where J is the product of the two singular values returned
    for the updated F, and the stress of line 51 is la * J * (J - 1) * I: its
    off-diagonal entries and its deviatoric part are zero. *)
Theorem fluid_isotropic_stress :
  forall (c : Params) (svd : Mat2 -> Mat2 * Mat2 * Mat2) (p : Particle),
    material p = 0%Z ->
    let J := J_of c svd p in
    J = m00 (svd_sig svd (F_update c p)) * m11 (svd_sig svd (F_update c p)) /\
    F (p2g_particle c svd p) = mat2 (sqrt J) 0 0 (sqrt J) /\
    mu_of c p = 0 /\
    stress c svd p = mscale (la_of c p * J * (J - 1)) mident /\
    m01 (stress c svd p) = 0 /\ m10 (stress c svd p) = 0 /\
    deviatoric (stress c svd p) = mzero.
Proof.
  intros c svd p Hm J. subst J.
  assert (Hmu : mu_of c p = 0) by (unfold mu_of; rewrite Hm; reflexivity).
  assert (HS : stress c svd p =
               mscale (la_of c p * J_of c svd p * (J_of c svd p - 1)) mident).
  { unfold stress. rewrite Hmu. mat_ring. }
  split; [|split; [|split; [exact Hmu|split; [exact HS|]]]].
  - unfold J_of. rewrite plasticity_unfold, Hm. simpl. ring.
  - simpl. unfold F_new. rewrite Hm. simpl. mat_ring.
  - rewrite HS. split; [|split]; [mat_unfold; ring | mat_unfold; ring | mat_unfold; f_equal; field].
Qed.

Lemma centre_fluid : material (centre_particle 0) = 0%Z.
Proof. reflexivity. Qed.

Lemma fluid_isotropic_stress_witness :
  deviatoric (stress source_params svd_diag (centre_particle 0)) = mzero.
Proof.
  exact (proj2 (proj2 (proj2 (proj2 (proj2 (proj2
    (fluid_isotropic_stress source_params svd_diag (centre_particle 0)
       centre_fluid))))))).
Defined.

(** ** Runs of several substeps *)

Lemma stencil_p2g c svd (p : Particle) :
  stencil_in_grid c p -> stencil_in_grid c (p2g_particle c svd p).
Proof. intro H. exact H. Qed.

Lemma substep_ok c svd (g : Grid) (ps : list Particle) :
  grid_shape c g -> Forall (stencil_in_grid c) ps ->
  exists st', substep c svd (g, ps) = Some st'.
Proof.
  intros Hs Hall. unfold substep. simpl fst. simpl snd.
  destruct (P2G_ok c svd ps (clear_grid c g) (clear_grid_shape c g Hs) Hall)
    as (g1 & -> & Hs1 & _).
  cbn [bind].
  destruct (G2P_ok c (enforce_boundary c (update_gridv c g1))
              (map (p2g_particle c svd) ps)) as [ps2 ->].
  - unfold enforce_boundary, update_gridv. now repeat apply map_nodes_shape.
  - rewrite Forall_map. eapply Forall_impl; [|exact Hall].
    intros p Hp. now apply stencil_p2g.
  - cbn [bind]. eauto.
Qed.

Lemma Jp_new_elastic c svd (p : Particle) :
  (material p = 0 \/ material p = 1)%Z -> sig_nonzero c svd p ->
  Jp_new c svd p = Jp p.
Proof.
  intros Hm [H0 H1]. unfold Jp_new. rewrite plasticity_unfold.
  unfold svd_sig.
  replace (material p =? 2)%Z with false by (symmetry; apply Z.eqb_neq; lia).
  simpl. field. auto.
Qed.

(** C9: a Fluid or Jelly particle keeps its Jp through a run of substeps,
    as long as the two singular values returned for its updated F are
    non-zero in each of them; in particular Jp = 1 stays 1. *)
Theorem fluid_jelly_Jp_unchanged :
  forall (c : Params) (svd : Mat2 -> Mat2 * Mat2 * Mat2) (n : nat)
         (st st' : State) (k : nat) (p : Particle),
    (material p = 0 \/ material p = 1)%Z ->
    nth_error (snd st) k = Some p ->
    substeps c svd n st = Some st' ->
    (forall (m : nat) (st_m : State) (p_m : Particle),
       (m < n)%nat -> substeps c svd m st = Some st_m ->
       nth_error (snd st_m) k = Some p_m -> sig_nonzero c svd p_m) ->
    exists p' : Particle,
      nth_error (snd st') k = Some p' /\ material p' = material p /\
      Jp p' = Jp p /\ (Jp p = 1 -> Jp p' = 1).
Proof.
  intros c svd n st st' k p Hmat Hp. revert st'.
  induction n as [|n IH]; intros st' Hrun Hnz.
  - simpl in Hrun. injection Hrun as <-. exists p. auto.
  - rewrite substeps_snoc in Hrun.
    destruct (substeps c svd n st) as [st_n|] eqn:Hn; cbn [bind] in Hrun; [|discriminate].
    destruct (IH st_n eq_refl) as (p_n & Hp_n & Hm_n & HJ_n & _).
    { intros m st_m p_m Hlt. apply Hnz. lia. }
    destruct (substep_nth c svd st_n st' k Hrun) as [_ Hfwd].
    destruct (Hfwd p_n Hp_n) as (p' & Hp' & _ & HJ' & Hm').
    assert (HJ : Jp p' = Jp p).
    { rewrite HJ', <- HJ_n. apply Jp_new_elastic.
      - rewrite Hm_n. exact Hmat.
      - apply (Hnz n st_n p_n); auto. }
    exists p'. repeat split; try congruence.
Qed.

(** C3: after one or more substeps, the deformation gradient of a Snow
    particle has exactly two singular values (counted with multiplicity), and
    both lie in [1 - 0.025, 1 + 0.0045], provided the factors U and V that
    svd returns are orthogonal and sig is diagonal. *)
Theorem snow_singular_values_clamped :
  forall (c : Params) (svd : Mat2 -> Mat2 * Mat2 * Mat2) (n : nat)
         (st st' : State) (k : nat) (p' : Particle),
    svd_orthogonal svd ->
    substeps c svd (S n) st = Some st' ->
    nth_error (snd st') k = Some p' ->
    material p' = 2%Z ->
    exists s1 s2 : R,
      1 - 0.025 <= s1 <= 1 + 0.0045 /\
      1 - 0.025 <= s2 <= 1 + 0.0045 /\
      (forall s : R, singular_value (F p') s <-> s = s1 \/ s = s2).
Proof.
  intros c svd n st st' k p' Hsvd Hrun Hp' Hmat.
  rewrite substeps_snoc in Hrun.
  destruct (substeps c svd n st) as [st_n|]; cbn [bind] in Hrun; [|discriminate].
  destruct (substep_nth c svd st_n st' k Hrun) as [Hback _].
  destruct (Hback p' Hp') as (p & _ & HF & _ & Hm).
  rewrite Hmat in Hm.
  destruct (Hsvd (F_update c p)) as (HU & HV & Hd0 & Hd1).
  set (sig := svd_sig svd (F_update c p)).
  exists (clamp_sig (m00 sig)), (clamp_sig (m11 sig)).
  split; [apply clamp_sig_range|]. split; [apply clamp_sig_range|].
  intro s. rewrite HF. unfold F_new, sig_new.
  rewrite plasticity_unfold, <- Hm. simpl. fold sig.
  unfold sig, svd_sig. rewrite Hd0, Hd1. fold (svd_sig svd (F_update c p)). fold sig.
  apply singular_values_of_factors; auto.
  - pose proof (clamp_sig_range (m00 sig)). lra.
  - pose proof (clamp_sig_range (m11 sig)). lra.
Qed.

Lemma svd_diag_orthogonal : svd_orthogonal svd_diag.
Proof.
  intro a. unfold svd_diag, orthogonal, diagonal. simpl.
  repeat split; try reflexivity; mat_unfold; f_equal; ring.
Qed.

Lemma centre_stencil (mat : Z) : stencil_in_grid source_params (centre_particle mat).
Proof. apply band_stencil; [simpl; lia | apply centre_in_band]. Qed.

Lemma centre_sig_nonzero (mat : Z) :
  sig_nonzero source_params svd_diag (centre_particle mat).
Proof. unfold sig_nonzero, svd_diag, F_update. simpl. split; lra. Qed.

Lemma fluid_jelly_Jp_unchanged_witness :
  exists (st' : State) (p' : Particle),
    substeps source_params svd_diag 1 (drift_grid, [centre_particle 1]) = Some st' /\
    nth_error (snd st') 0 = Some p' /\ Jp p' = 1.
Proof.
  destruct (substep_ok source_params svd_diag drift_grid [centre_particle 1]
              drift_grid_shape (Forall_cons _ (centre_stencil 1) (Forall_nil _)))
    as [st' Hst].
  assert (Hrun : substeps source_params svd_diag 1 (drift_grid, [centre_particle 1])
                 = Some st').
  { cbn [substeps]. rewrite Hst. reflexivity. }
  destruct (fluid_jelly_Jp_unchanged source_params svd_diag 1
              (drift_grid, [centre_particle 1]) st' 0 (centre_particle 1)
              (or_intror eq_refl) eq_refl Hrun) as (p' & Hp' & _ & HJ & _).
  - intros m st_m p_m Hlt Hm Hp.
    assert (m = 0)%nat by lia. subst m. cbn [substeps] in Hm.
    injection Hm as <-. simpl in Hp. injection Hp as <-.
    apply centre_sig_nonzero.
  - exists st', p'. repeat split; auto.
Defined.

Lemma snow_singular_values_clamped_witness :
  exists (st' : State) (p' : Particle),
    substeps source_params svd_diag 1 (drift_grid, [centre_particle 2]) = Some st' /\
    nth_error (snd st') 0 = Some p' /\
    exists s1 s2 : R,
      1 - 0.025 <= s1 <= 1 + 0.0045 /\
      1 - 0.025 <= s2 <= 1 + 0.0045 /\
      (forall s : R, singular_value (F p') s <-> s = s1 \/ s = s2).
Proof.
  destruct (substep_ok source_params svd_diag drift_grid [centre_particle 2]
              drift_grid_shape (Forall_cons _ (centre_stencil 2) (Forall_nil _)))
    as [st' Hst].
  assert (Hrun : substeps source_params svd_diag 1 (drift_grid, [centre_particle 2])
                 = Some st').
  { cbn [substeps]. rewrite Hst. reflexivity. }
  destruct (substep_nth source_params svd_diag _ st' 0 Hst) as [_ Hfwd].
  destruct (Hfwd (centre_particle 2) eq_refl) as (p' & Hp' & _ & _ & Hm).
  exists st', p'. split; [exact Hrun|]. split; [exact Hp'|].
  exact (snow_singular_values_clamped source_params svd_diag 0
           (drift_grid, [centre_particle 2]) st' 0 p'
           svd_diag_orthogonal Hrun Hp' Hm).
Defined.

(** ** A particle at rest *)

Lemma set_nth_Forall {A : Type} (P : A -> Prop) (k : nat) (a : A) (l : list A) :
  Forall P l -> P a -> Forall P (set_nth k a l).
Proof.
  intros Hl Ha. revert k. induction Hl as [|h t Hh Ht IH]; intros [|k]; simpl;
    constructor; auto.
Qed.

Lemma map_nodes_from_Forall c (P : Node -> Prop) (f : Z -> Z -> Node -> Node)
    (g : Grid) :
  (forall i j nd, P nd -> P (f i j nd)) ->
  Forall P g -> forall k, Forall P (map_nodes_from c k f g).
Proof.
  intros Hf Hg. induction Hg as [|h t Hh Ht IH]; intro k; simpl; constructor; auto.
Qed.

Lemma clear_grid_still c (g : Grid) : still (clear_grid c g).
Proof.
  unfold still, clear_grid, map_nodes. generalize 0%nat.
  induction g as [|h t IH]; intro k; simpl; constructor; auto.
Qed.

Lemma grid_get_still c (g : Grid) (I : IVec2) (nd : Node) :
  still g -> grid_get c g I = Some nd -> grid_v nd = vzero.
Proof.
  unfold still, grid_get. intros Hs H.
  destruct (in_grid c I); [|discriminate].
  apply nth_error_In in H. rewrite Forall_forall in Hs. auto.
Qed.

Lemma update_gridv_still c (g : Grid) :
  gravity c = 0 -> still g -> still (update_gridv c g).
Proof.
  intros Hg Hs. unfold still, update_gridv, map_nodes.
  apply map_nodes_from_Forall; [|exact Hs].
  intros _ _ nd Hnd. unfold update_node.
  destruct (Rlt_dec 0 (grid_m nd)); [|exact Hnd].
  simpl. rewrite Hnd, Hg. mat_ring.
Qed.

Lemma enforce_boundary_still c (g : Grid) : still g -> still (enforce_boundary c g).
Proof.
  intros Hs. unfold still, enforce_boundary, map_nodes.
  apply map_nodes_from_Forall; [|exact Hs].
  intros i j nd Hnd. unfold boundary_node. rewrite Hnd. unfold vzero. simpl.
  repeat (destruct (Rlt_dec 0 0) as [Hlt|_]; [lra|]; rewrite ?andb_false_r; simpl).
  reflexivity.
Qed.

Lemma scatter_still c svd (p : Particle) (offs : list (nat * nat)) :
  v p = vzero -> affine c svd p = mzero ->
  forall g g' : Grid, still g -> scatter c svd p offs g = Some g' -> still g'.
Proof.
  intros Hv Ha. induction offs as [|[i j] rest IH]; intros g g' Hs H; cbn [scatter] in H.
  - now injection H as <-.
  - unfold grid_add in H at 1.
    destruct (grid_get c g (iadd (base_of c p) (offset_of i j))) as [nd|] eqn:Hnd;
      cbn [bind] in H; [|discriminate].
    apply IH in H; [exact H|].
    apply set_nth_Forall; [exact Hs|].
    simpl. rewrite (grid_get_still c g _ nd Hs Hnd), Hv, Ha. mat_ring.
Qed.

Lemma P2G_still c svd (ps : list Particle) :
  Forall (fun p => v p = vzero /\ affine c svd p = mzero) ps ->
  forall (g g' : Grid) (ps' : list Particle),
    still g -> P2G c svd g ps = Some (g', ps') -> still g'.
Proof.
  intro Hall. induction Hall as [|p rest [Hv Ha] Hrest IH]; intros g g' ps' Hs H;
    cbn [P2G] in H.
  - now inversion H; subst.
  - destruct (scatter c svd p ndrange33 g) as [g1|] eqn:Hg1; cbn [bind] in H; [|discriminate].
    destruct (P2G c svd g1 rest) as [[g2 rest']|] eqn:Hg2; cbn [bind] in H; [|discriminate].
    inversion H; subst. eapply IH; [|exact Hg2].
    eapply scatter_still; eauto.
Qed.

Lemma gather_still c (g : Grid) (p : Particle) (offs : list (nat * nat)) :
  still g ->
  forall r, gather c g p offs (vzero, mzero) = Some r -> r = (vzero, mzero).
Proof.
  intros Hs. induction offs as [|[i j] rest IH]; intros r H; cbn [gather] in H.
  - now injection H as <-.
  - destruct (grid_get c g (iadd (base_of c p) (offset_of i j))) as [nd|] eqn:Hnd;
      cbn [bind] in H; [|discriminate].
    rewrite (grid_get_still c g _ nd Hs Hnd) in H. cbn [fst snd] in H.
    apply IH. rewrite <- H. f_equal. f_equal; mat_ring.
Qed.

Lemma svd_exact_identity svd :
  svd_exact_at svd mident ->
  svd_sig svd mident = mident /\
  mmul (svd_U svd mident) (transpose (svd_V svd mident)) = mident.
Proof.
  unfold svd_exact_at, svd_sig, svd_U, svd_V. cbv zeta.
  set (U := fst (fst (svd mident))). set (S := snd (fst (svd mident))).
  set (V := snd (svd mident)).
  intros (HU & HV & [Hd0 Hd1] & Ha & Hb & Hprod).
  assert (HG : mmul (mmul V (mmul (transpose S) S)) (transpose V) = mident).
  { rewrite <- (gram_of_factors U S V HU), Hprod. mat_ring. }
  assert (HX : mmul (transpose S) S = mident).
  { assert (H : mmul (transpose V)
                  (mmul (mmul (mmul V (mmul (transpose S) S)) (transpose V)) V)
                = mmul (transpose S) S).
    { rewrite !mmul_assoc. rewrite (proj1 HV), !mmul_ident_r.
      rewrite <- mmul_assoc, (proj1 HV), mmul_ident_l. reflexivity. }
    rewrite <- H, HG, mmul_ident_l. exact (proj1 HV). }
  assert (HS : S = mident).
  { clear HG Hprod. clearbody S. destruct S as [a b0 c0 d]. simpl in *. subst b0 c0.
    unfold mmul, transpose, mident in HX. simpl in HX.
    apply mat2_inj in HX. destruct HX as (H0 & _ & _ & H1).
    unfold mident. f_equal; nra. }
  split; [exact HS|].
  rewrite HS, mmul_ident_r in Hprod. exact Hprod.
Qed.

Lemma rest_F_update c (p : Particle) :
  C p = mzero -> F p = mident -> F_update c p = mident.
Proof. intros HC HF. unfold F_update. rewrite HC, HF. mat_ring. Qed.

Lemma rest_plasticity c svd (p : Particle) :
  svd_exact_at svd mident -> C p = mzero -> F p = mident ->
  plasticity c svd p = (mident, Jp p, 1).
Proof.
  intros Hsvd HC HF. rewrite plasticity_unfold. cbv zeta.
  rewrite (rest_F_update c p HC HF).
  rewrite (proj1 (svd_exact_identity svd Hsvd)). unfold mident. simpl.
  assert (Hc : clamp_sig 1 = 1) by (apply clamp_sig_fixed; lra).
  destruct (material p =? 2)%Z; rewrite ?Hc; f_equal; try f_equal; field.
Qed.

Lemma rest_constitutive c svd (p : Particle) :
  svd_exact_at svd mident -> C p = mzero -> F p = mident ->
  F_new c svd p = mident /\ Jp_new c svd p = Jp p /\ stress c svd p = mzero /\
  affine c svd p = mzero.
Proof.
  intros Hsvd HC HF.
  pose proof (rest_plasticity c svd p Hsvd HC HF) as Hpl.
  pose proof (rest_F_update c p HC HF) as HFu.
  destruct (svd_exact_identity svd Hsvd) as [Hsig HUV].
  assert (HFn : F_new c svd p = mident).
  { unfold F_new, J_of, sig_new. rewrite Hpl, HFu. simpl.
    destruct (material p =? 0)%Z.
    - rewrite sqrt_1. mat_ring.
    - destruct (material p =? 2)%Z; [|reflexivity].
      rewrite mmul_ident_r. exact HUV. }
  assert (HSt : stress c svd p = mzero).
  { unfold stress, J_of. rewrite HFn, Hpl, HFu, HUV. simpl. mat_ring. }
  repeat split; auto.
  - unfold Jp_new. now rewrite Hpl.
  - unfold affine, stress_scaled. rewrite HSt, HC. mat_ring.
Qed.

Lemma rest_p2g_particle c svd (p : Particle) :
  svd_exact_at svd mident -> C p = mzero -> F p = mident ->
  p2g_particle c svd p = p.
Proof.
  intros Hsvd HC HF.
  destruct (rest_constitutive c svd p Hsvd HC HF) as (HFn & HJp & _).
  unfold p2g_particle. rewrite HFn, HJp, <- HF. now destruct p.
Qed.

Lemma rest_g2p_particle c (g : Grid) (p p' : Particle) :
  still g -> v p = vzero -> C p = mzero ->
  g2p_particle c g p = Some p' -> p' = p.
Proof.
  intros Hs Hv HC H. unfold g2p_particle in H.
  destruct (gather c g p ndrange33 (vzero, mzero)) as [r|] eqn:Hr;
    cbn [bind] in H; [|discriminate].
  apply (gather_still c g p _ Hs) in Hr. subst r.
  injection H as <-. destruct p as [[a b] pv pC pF pm pJ]. simpl in *. subst.
  f_equal. mat_ring.
Qed.

(** C7: a single particle with zero velocity, zero affine matrix and
    identity deformation gradient, lying at least 3 cells from every domain
    edge, is left unchanged by one substep when gravity is zero and svd
    returns a singular value decomposition of the identity. *)
Theorem rest_particle_unchanged :
  forall (c : Params) (svd : Mat2 -> Mat2 * Mat2 * Mat2) (g : Grid)
         (p : Particle),
    (0 < n_grid c)%Z ->
    grid_shape c g ->
    gravity c = 0 ->
    svd_exact_at svd mident ->
    v p = vzero -> C p = mzero -> F p = mident ->
    in_band c p ->
    exists g' : Grid, substep c svd (g, [p]) = Some (g', [p]) /\ still g'.
Proof.
  intros c svd g p Hn Hs Hg Hsvd Hv HC HF Hb.
  pose proof (band_stencil c p Hn Hb) as Hst.
  destruct (rest_constitutive c svd p Hsvd HC HF) as (_ & _ & _ & Haff).
  unfold substep. simpl fst. simpl snd.
  destruct (P2G_ok c svd [p] (clear_grid c g) (clear_grid_shape c g Hs)
              (Forall_cons _ Hst (Forall_nil _))) as (g1 & HP & Hs1 & _).
  pose proof (P2G_still c svd [p] (Forall_cons _ (conj Hv Haff) (Forall_nil _))
                _ _ _ (clear_grid_still c g) HP) as Hst1.
  rewrite HP. cbn [bind map]. rewrite (rest_p2g_particle c svd p Hsvd HC HF).
  set (g3 := enforce_boundary c (update_gridv c g1)).
  assert (Hst3 : still g3).
  { apply enforce_boundary_still. now apply update_gridv_still. }
  assert (Hs3 : grid_shape c g3).
  { unfold g3, enforce_boundary, update_gridv. now repeat apply map_nodes_shape. }
  destruct (G2P_ok c g3 [p] Hs3 (Forall_cons _ Hst (Forall_nil _))) as [ps2 HG].
  rewrite HG. cbn [bind]. exists g3. split; [|exact Hst3].
  cbn [G2P] in HG.
  destruct (g2p_particle c g3 p) as [p'|] eqn:Hp'; cbn [bind] in HG; [|discriminate].
  injection HG as <-.
  now rewrite (rest_g2p_particle c g3 p p' Hst3 Hv HC Hp').
Qed.

Lemma svd_diag_exact_identity : svd_exact_at svd_diag mident.
Proof.
  unfold svd_exact_at, svd_diag, orthogonal, diagonal. simpl.
  repeat split; try reflexivity; try lra; mat_unfold; f_equal; ring.
Qed.

Lemma rest_grid_shape : grid_shape rest_params drift_grid.
Proof. unfold grid_shape, drift_grid. apply repeat_length. Qed.

Lemma centre_in_rest_band (mat : Z) : in_band rest_params (centre_particle mat).
Proof. unfold in_band, dx. simpl. lra. Qed.

Lemma rest_particle_unchanged_witness :
  exists g' : Grid,
    substep rest_params svd_diag (drift_grid, [centre_particle 2]) =
    Some (g', [centre_particle 2]) /\ still g'.
Proof.
  apply (rest_particle_unchanged rest_params svd_diag drift_grid (centre_particle 2)).
  - simpl. lia.
  - exact rest_grid_shape.
  - reflexivity.
  - exact svd_diag_exact_identity.
  - reflexivity.
  - reflexivity.
  - reflexivity.
  - apply centre_in_rest_band.
Defined.

Lemma update_gridv_node_witness :
  exists nd' : Node,
    grid_get source_params (update_gridv source_params drift_grid) (ivec2 3 4) = Some nd' /\
    grid_m nd' = 1 /\
    (0 < 1 -> grid_v nd' = vec2 (1 / 1) (0 / 1 - dt source_params * gravity source_params)) /\
    (~ 0 < 1 -> nd' = drift_node /\ (grid_v drift_node = vzero -> grid_v nd' = vzero)).
Proof.
  exact (update_gridv_node source_params drift_grid (ivec2 3 4) drift_node
           (drift_grid_get (ivec2 3 4) eq_refl)).
Defined.

(** * Further properties of the stages *)

(** ** enforce_boundary *)

Lemma boundary_node_effect c (i j : Z) (nd : Node) :
  grid_m (boundary_node c i j nd) = grid_m nd /\
  (vx (grid_v (boundary_node c i j nd)) = vx (grid_v nd) \/
   vx (grid_v (boundary_node c i j nd)) = 0) /\
  (vy (grid_v (boundary_node c i j nd)) = vy (grid_v nd) \/
   vy (grid_v (boundary_node c i j nd)) = 0) /\
  ((3 <= i <= n_grid c - 3)%Z ->
   vx (grid_v (boundary_node c i j nd)) = vx (grid_v nd)) /\
  ((3 <= j <= n_grid c - 3)%Z ->
   vy (grid_v (boundary_node c i j nd)) = vy (grid_v nd)).
Proof.
  destruct nd as [[a b] m]. unfold boundary_node. cbv zeta. simpl grid_v.
  destruct (i <? 3)%Z eqn:Hi1; destruct (i >? n_grid c - 3)%Z eqn:Hi2;
  destruct (j <? 3)%Z eqn:Hj1; destruct (j >? n_grid c - 3)%Z eqn:Hj2;
  simpl;
  repeat match goal with
  | |- context [Rlt_dec ?u ?w] => destruct (Rlt_dec u w); simpl in *
  | H : context [Rlt_dec ?u ?w] |- _ => destruct (Rlt_dec u w); simpl in *
  end;
  rewrite ?Z.ltb_lt, ?Z.ltb_ge in *;
  try (apply Z.gtb_ltb in Hi2; rewrite ?Z.ltb_lt, ?Z.ltb_ge in Hi2);
  try (apply Z.gtb_ltb in Hj2; rewrite ?Z.ltb_lt, ?Z.ltb_ge in Hj2);
  repeat split; intros; simpl in *; auto; try lia.
Qed.

(** X1: enforce_boundary only ever zeroes velocity components: it keeps every
    node's mass, each component of the velocity is either kept or set to 0,
    and along an axis whose index is in [3, n_grid - 3] the component is
    kept. *)
Theorem enforce_boundary_only_zeroes :
  forall (c : Params) (g : Grid) (I : IVec2) (nd : Node),
    grid_get c g I = Some nd ->
    exists nd' : Node,
      grid_get c (enforce_boundary c g) I = Some nd' /\
      grid_m nd' = grid_m nd /\
      (vx (grid_v nd') = vx (grid_v nd) \/ vx (grid_v nd') = 0) /\
      (vy (grid_v nd') = vy (grid_v nd) \/ vy (grid_v nd') = 0) /\
      ((3 <= ix I <= n_grid c - 3)%Z -> vx (grid_v nd') = vx (grid_v nd)) /\
      ((3 <= iy I <= n_grid c - 3)%Z -> vy (grid_v nd') = vy (grid_v nd)).
Proof.
  intros c g I nd H. exists (boundary_node c (ix I) (iy I) nd). split.
  - unfold enforce_boundary. rewrite grid_get_map_nodes, H. reflexivity.
  - apply boundary_node_effect.
Qed.

Lemma enforce_boundary_only_zeroes_witness :
  exists nd' : Node,
    grid_get source_params (enforce_boundary source_params drift_grid) (ivec2 126 64)
    = Some nd' /\
    grid_m nd' = 1 /\
    (vx (grid_v nd') = 1 \/ vx (grid_v nd') = 0) /\
    (vy (grid_v nd') = 0 \/ vy (grid_v nd') = 0) /\
    ((3 <= 126 <= 128 - 3)%Z -> vx (grid_v nd') = 1) /\
    ((3 <= 64 <= 128 - 3)%Z -> vy (grid_v nd') = 0).
Proof.
  exact (enforce_boundary_only_zeroes source_params drift_grid (ivec2 126 64)
           drift_node (drift_grid_get (ivec2 126 64) eq_refl)).
Defined.

(* case analysis on a comparison whose operands hold no other comparison *)
Ltac innermost_Rlt_dec :=
  match goal with
  | |- context [Rlt_dec ?u ?w] =>
      lazymatch u with
      | context [Rlt_dec _ _] => fail
      | _ =>
          lazymatch w with
          | context [Rlt_dec _ _] => fail
          | _ => destruct (Rlt_dec u w); simpl
          end
      end
  end.

Lemma boundary_node_axes c (i j : Z) (nd : Node) :
  boundary_node c i j nd =
  {| grid_v := vec2 (wall (n_grid c) i (vx (grid_v nd)))
                    (wall (n_grid c) j (vy (grid_v nd)));
     grid_m := grid_m nd |}.
Proof.
  destruct nd as [[a b] m]. unfold boundary_node, wall. simpl grid_v. simpl grid_m.
  destruct (i <? 3)%Z; destruct (i >? n_grid c - 3)%Z;
  destruct (j <? 3)%Z; destruct (j >? n_grid c - 3)%Z;
  simpl; repeat innermost_Rlt_dec; reflexivity.
Qed.

Lemma wall_idempotent (n i : Z) (a : R) : wall n i (wall n i a) = wall n i a.
Proof.
  unfold wall. destruct (i <? 3)%Z; destruct (i >? n - 3)%Z;
  simpl; repeat innermost_Rlt_dec; try reflexivity; lra.
Qed.

Lemma boundary_node_idempotent c (i j : Z) (nd : Node) :
  boundary_node c i j (boundary_node c i j nd) = boundary_node c i j nd.
Proof.
  rewrite !boundary_node_axes. simpl. now rewrite !wall_idempotent.
Qed.

Lemma map_nodes_from_twice c (f : Z -> Z -> Node -> Node) (g : Grid) :
  (forall i j nd, f i j (f i j nd) = f i j nd) ->
  forall k, map_nodes_from c k f (map_nodes_from c k f g) = map_nodes_from c k f g.
Proof.
  intro Hf. induction g as [|h t IH]; intro k; simpl; [reflexivity|].
  rewrite Hf, IH. reflexivity.
Qed.

(** X2: enforce_boundary is idempotent: applying the wall conditions to a
    grid that already went through them changes nothing. *)
Theorem enforce_boundary_idempotent :
  forall (c : Params) (g : Grid),
    enforce_boundary c (enforce_boundary c g) = enforce_boundary c g.
Proof.
  intros c g. unfold enforce_boundary, map_nodes.
  apply map_nodes_from_twice. intros i j nd. apply boundary_node_idempotent.
Qed.

(** ** Mass through a whole substep *)

Lemma total_mass_map_nodes_from c (f : Z -> Z -> Node -> Node) (g : Grid) :
  (forall i j nd, grid_m (f i j nd) = grid_m nd) ->
  forall k, total_mass (map_nodes_from c k f g) = total_mass g.
Proof.
  intro Hf. induction g as [|h t IH]; intro k; simpl; [reflexivity|].
  rewrite Hf, IH. reflexivity.
Qed.

Lemma update_node_mass c (nd : Node) : grid_m (update_node c nd) = grid_m nd.
Proof. unfold update_node. destruct (Rlt_dec 0 (grid_m nd)); reflexivity. Qed.

Lemma GridUpdate_mass c (g : Grid) :
  total_mass (enforce_boundary c (update_gridv c g)) = total_mass g.
Proof.
  unfold enforce_boundary, update_gridv, map_nodes.
  rewrite !total_mass_map_nodes_from; auto.
  intros. apply update_node_mass.
Qed.

Lemma G2P_length c (g : Grid) (ps : list Particle) :
  forall ps', G2P c g ps = Some ps' -> length ps' = length ps.
Proof.
  induction ps as [|p rest IH]; intros ps' H; cbn [G2P] in H.
  - now injection H as <-.
  - destruct (g2p_particle c g p) as [p'|]; cbn [bind] in H; [|discriminate].
    destruct (G2P c g rest) as [rest'|]; cbn [bind] in H; [|discriminate].
    injection H as <-. simpl. f_equal. now apply IH.
Qed.

(** X3: when the 3x3 neighbourhood of every particle lies inside the grid,
    a whole substep succeeds, keeps the number of particles and the shape of
    the grid, and the grid it leaves behind carries exactly the mass of the
    particles: the two grid stages never change a node mass. *)
Theorem substep_grid_mass :
  forall (c : Params) (svd : Mat2 -> Mat2 * Mat2 * Mat2) (g : Grid)
         (ps : list Particle),
    grid_shape c g ->
    Forall (stencil_in_grid c) ps ->
    exists (g' : Grid) (ps' : list Particle),
      substep c svd (g, ps) = Some (g', ps') /\
      grid_shape c g' /\ length ps' = length ps /\
      total_mass g' = INR (length ps) * p_mass c.
Proof.
  intros c svd g ps Hs Hall. unfold substep. simpl fst. simpl snd.
  destruct (P2G_ok c svd ps (clear_grid c g) (clear_grid_shape c g Hs) Hall)
    as (g1 & -> & Hs1 & Hm1).
  cbn [bind].
  assert (Hs3 : grid_shape c (enforce_boundary c (update_gridv c g1))).
  { unfold enforce_boundary, update_gridv. now repeat apply map_nodes_shape. }
  destruct (G2P_ok c (enforce_boundary c (update_gridv c g1))
              (map (p2g_particle c svd) ps) Hs3) as [ps2 HG].
  { rewrite Forall_map. eapply Forall_impl; [|exact Hall].
    intros p Hp. now apply stencil_p2g. }
  rewrite HG. cbn [bind]. eexists; eexists. split; [reflexivity|].
  split; [exact Hs3|]. split.
  - rewrite (G2P_length c _ _ _ HG). apply length_map.
  - rewrite GridUpdate_mass, Hm1, clear_grid_mass. lra.
Qed.

Lemma substep_grid_mass_witness :
  exists (g' : Grid) (ps' : list Particle),
    substep source_params svd_diag
      (drift_grid, [centre_particle 0; centre_particle 1; centre_particle 2])
    = Some (g', ps') /\
    grid_shape source_params g' /\ length ps' = 3%nat /\
    total_mass g' = INR 3 * p_mass source_params.
Proof.
  apply (substep_grid_mass source_params svd_diag drift_grid
           [centre_particle 0; centre_particle 1; centre_particle 2]).
  - exact drift_grid_shape.
  - repeat constructor; apply centre_stencil.
Defined.

(** ** Particle count and materials over a run *)

Lemma scatter_length c svd (p : Particle) (offs : list (nat * nat)) :
  forall g g' : Grid, scatter c svd p offs g = Some g' -> length g' = length g.
Proof.
  induction offs as [|[i j] rest IH]; intros g g' H; cbn [scatter] in H.
  - now injection H as <-.
  - unfold grid_add in H at 1.
    destruct (grid_get c g (iadd (base_of c p) (offset_of i j))) as [nd|];
      cbn [bind] in H; [|discriminate].
    rewrite (IH _ _ H). apply set_nth_length.
Qed.

Lemma P2G_length c svd (ps : list Particle) :
  forall (g g' : Grid) (ps' : list Particle),
    P2G c svd g ps = Some (g', ps') -> length g' = length g.
Proof.
  induction ps as [|p rest IH]; intros g g' ps' H; cbn [P2G] in H.
  - now inversion H.
  - destruct (scatter c svd p ndrange33 g) as [g1|] eqn:Hsc; cbn [bind] in H;
      [|discriminate].
    destruct (P2G c svd g1 rest) as [[g2 rest']|] eqn:Hr; cbn [bind] in H;
      [|discriminate].
    inversion H; subst. rewrite (IH _ _ _ Hr). eapply scatter_length; eauto.
Qed.

Lemma substep_length_material c svd (st st' : State) :
  substep c svd st = Some st' ->
  length (fst st') = length (fst st) /\
  map material (snd st') = map material (snd st).
Proof.
  intro H. split.
  - unfold substep in H.
    destruct (P2G c svd (clear_grid c (fst st)) (snd st)) as [[g1 ps1]|] eqn:HP;
      cbn [bind] in H; [|discriminate].
    destruct (G2P c (enforce_boundary c (update_gridv c g1)) ps1) as [ps2|];
      cbn [bind] in H; [|discriminate].
    injection H as <-. simpl.
    unfold enforce_boundary, update_gridv, map_nodes.
    rewrite !map_nodes_from_length, (P2G_length c svd _ _ _ _ HP).
    unfold clear_grid, map_nodes. apply map_nodes_from_length.
  - apply nth_error_ext. intro k. rewrite !nth_error_map.
    destruct (substep_nth c svd st st' k H) as [Hback Hfwd].
    destruct (nth_error (snd st) k) as [p|] eqn:Hp.
    + destruct (Hfwd p eq_refl) as (p' & -> & _ & _ & Hm). simpl. now rewrite Hm.
    + destruct (nth_error (snd st') k) as [p'|] eqn:Hp'; [|reflexivity].
      destruct (Hback p' eq_refl) as (p & Hp0 & _). discriminate.
Qed.

(** X4: a run of substeps never creates or destroys a particle and never
    changes a material id; it also keeps the size of the grid. *)
Theorem substeps_keep_materials :
  forall (c : Params) (svd : Mat2 -> Mat2 * Mat2 * Mat2) (n : nat)
         (st st' : State),
    substeps c svd n st = Some st' ->
    length (snd st') = length (snd st) /\
    map material (snd st') = map material (snd st) /\
    length (fst st') = length (fst st).
Proof.
  intros c svd n. induction n as [|n IH]; intros st st' H.
  - simpl in H. injection H as <-. auto.
  - cbn [substeps] in H.
    destruct (substep c svd st) as [st1|] eqn:H1; cbn [bind] in H; [|discriminate].
    destruct (IH st1 st' H) as (Hl & Hm & Hg).
    destruct (substep_length_material c svd st st1 H1) as [Hg1 Hm1].
    assert (Hmm : map material (snd st') = map material (snd st)) by congruence.
    split; [|split]; [|exact Hmm|congruence].
    rewrite <- (length_map material (snd st')), Hmm. apply length_map.
Qed.

Lemma substeps_keep_materials_witness :
  exists st' : State,
    substeps source_params svd_diag 1
      (drift_grid, [centre_particle 0; centre_particle 2]) = Some st' /\
    length (snd st') = 2%nat /\
    map material (snd st') = [0; 2]%Z /\
    length (fst st') = length drift_grid.
Proof.
  destruct (substep_ok source_params svd_diag drift_grid
              [centre_particle 0; centre_particle 2] drift_grid_shape
              (Forall_cons _ (centre_stencil 0)
                 (Forall_cons _ (centre_stencil 2) (Forall_nil _))))
    as [st' Hst].
  assert (Hrun : substeps source_params svd_diag 1
                   (drift_grid, [centre_particle 0; centre_particle 2]) = Some st').
  { cbn [substeps]. rewrite Hst. reflexivity. }
  exists st'. split; [exact Hrun|].
  exact (substeps_keep_materials source_params svd_diag 1 _ st' Hrun).
Defined.

(** ** More on the constitutive model *)


Lemma clamp_sig_pos (s : R) : 0 < clamp_sig s.
Proof. pose proof (clamp_sig_range s). lra. Qed.

(** X6: for a Snow particle the clamp moves volume change from the elastic
    to the plastic part without losing any: the new Jp times the new J equals
    the old Jp times the product of the singular values returned for the
    updated F. *)
Theorem snow_volume_split :
  forall (c : Params) (svd : Mat2 -> Mat2 * Mat2 * Mat2) (p : Particle),
    material p = 2%Z ->
    Jp_new c svd p * J_of c svd p =
    Jp p * (m00 (svd_sig svd (F_update c p)) * m11 (svd_sig svd (F_update c p))) /\
    J_of c svd p =
    clamp_sig (m00 (svd_sig svd (F_update c p))) *
    clamp_sig (m11 (svd_sig svd (F_update c p))).
Proof.
  intros c svd p Hm. unfold Jp_new, J_of. rewrite plasticity_unfold, Hm. simpl.
  pose proof (clamp_sig_pos (m00 (svd_sig svd (F_update c p)))).
  pose proof (clamp_sig_pos (m11 (svd_sig svd (F_update c p)))).
  split; field; lra.
Qed.

Lemma snow_volume_split_witness :
  Jp_new source_params svd_diag (centre_particle 2) *
  J_of source_params svd_diag (centre_particle 2) =
  Jp (centre_particle 2) *
  (m00 (svd_sig svd_diag (F_update source_params (centre_particle 2))) *
   m11 (svd_sig svd_diag (F_update source_params (centre_particle 2)))).
Proof.
  exact (proj1 (snow_volume_split source_params svd_diag (centre_particle 2) eq_refl)).
Defined.

(** X7: a Snow particle whose updated F has both singular values inside
    [1 - 0.025, 1 + 0.0045] is not yielding: when svd returns a decomposition
    of the updated F, P2G writes the updated F back unchanged and leaves Jp
    as it was. *)
Theorem snow_elastic_regime :
  forall (c : Params) (svd : Mat2 -> Mat2 * Mat2 * Mat2) (p : Particle),
    material p = 2%Z ->
    svd_exact_at svd (F_update c p) ->
    1 - 0.025 <= m00 (svd_sig svd (F_update c p)) <= 1 + 0.0045 ->
    1 - 0.025 <= m11 (svd_sig svd (F_update c p)) <= 1 + 0.0045 ->
    F (p2g_particle c svd p) = F_update c p /\
    Jp (p2g_particle c svd p) = Jp p.
Proof.
  intros c svd p Hm (HU & HV & [Hd0 Hd1] & _ & _ & Hprod) H0 H1.
  simpl. unfold F_new, Jp_new, sig_new. rewrite plasticity_unfold, Hm. simpl.
  unfold svd_sig in *. rewrite (clamp_sig_fixed _ H0), (clamp_sig_fixed _ H1).
  split.
  - rewrite <- mat2_eta. exact Hprod.
  - field. lra.
Qed.

Lemma centre_F_update (mat : Z) :
  F_update source_params (centre_particle mat) = mident.
Proof. now apply rest_F_update. Qed.

Lemma snow_elastic_regime_witness :
  F (p2g_particle source_params svd_diag (centre_particle 2)) =
  F_update source_params (centre_particle 2) /\
  Jp (p2g_particle source_params svd_diag (centre_particle 2)) =
  Jp (centre_particle 2).
Proof.
  apply (snow_elastic_regime source_params svd_diag (centre_particle 2)).
  - reflexivity.
  - rewrite centre_F_update. exact svd_diag_exact_identity.
  - rewrite centre_F_update. simpl. lra.
  - rewrite centre_F_update. simpl. lra.
Defined.

(** ** Momentum in P2G *)

Lemma grid_sum_set_nth (f : Node -> R) (g : Grid) (k : nat) (nd nd' : Node) :
  nth_error g k = Some nd ->
  grid_sum f (set_nth k nd' g) = grid_sum f g - f nd + f nd'.
Proof.
  revert k; induction g as [|h t IH]; intros [|k] Hk; simpl in *; try discriminate.
  - injection Hk as ->. lra.
  - rewrite (IH _ Hk). lra.
Qed.

Lemma grid_add_momentum c (g g' : Grid) (I : IVec2) (dv : Vec2) (dm : R) :
  grid_add c g I dv dm = Some g' ->
  total_momentum g' = vadd (total_momentum g) dv.
Proof.
  unfold grid_add. intro H.
  destruct (grid_get c g I) as [nd|] eqn:Hnd; cbn [bind] in H; [|discriminate].
  injection H as <-. unfold grid_get in Hnd.
  destruct (in_grid c I); [|discriminate].
  unfold total_momentum, vadd.
  rewrite !(grid_sum_set_nth _ _ _ _ _ Hnd). simpl. f_equal; lra.
Qed.

(* the momentum one particle adds over the offsets offs *)
Lemma scatter_momentum c svd (p : Particle) (offs : list (nat * nat)) :
  forall g g' : Grid,
    scatter c svd p offs g = Some g' ->
    total_momentum g' =
    vadd (total_momentum g)
      (fold_right
         (fun ij acc =>
            vadd (vscale (weight_of c p (fst ij) (snd ij))
                    (vadd (vscale (p_mass c) (v p))
                       (mvec (affine c svd p)
                          (vscale_r (vsub (cast_float (offset_of (fst ij) (snd ij)))
                                       (fx_of c p)) (dx c)))))
                 acc)
         vzero offs).
Proof.
  induction offs as [|[i j] rest IH]; intros g g' H; cbn [scatter] in H.
  - injection H as <-. simpl. destruct (total_momentum g). mat_ring.
  - match type of H with
    | bind ?m _ = _ => destruct m as [g1|] eqn:Hadd; cbn [bind] in H; [|discriminate]
    end.
    rewrite (IH _ _ H), (grid_add_momentum c _ _ _ _ _ Hadd).
    cbn [fold_right fst snd]. mat_ring.
Qed.

Lemma stencil_momentum c svd (p : Particle) :
  fold_right
    (fun ij acc =>
       vadd (vscale (weight_of c p (fst ij) (snd ij))
               (vadd (vscale (p_mass c) (v p))
                  (mvec (affine c svd p)
                     (vscale_r (vsub (cast_float (offset_of (fst ij) (snd ij)))
                                  (fx_of c p)) (dx c)))))
            acc)
    vzero ndrange33
  = vscale (p_mass c) (v p).
Proof.
  unfold ndrange33, weight_of, bspline, offset_of, cast_float.
  cbn [fold_right fst snd nth vx vy ix iy Z.of_nat Pos.of_succ_nat Pos.succ].
  generalize (fx_of c p) (affine c svd p) (v p) (p_mass c) (dx c).
  intros [a b] [a00 a01 a10 a11] [u0 u1] m d.
  unfold vadd, vscale, vscale_r, vsub, mvec, vzero, w0, w1, w2. simpl.
  f_equal; lra.
Qed.

Lemma P2G_momentum c svd (ps : list Particle) :
  forall (g g' : Grid) (ps' : list Particle),
    P2G c svd g ps = Some (g', ps') ->
    total_momentum g' = vadd (total_momentum g) (particle_momentum c ps).
Proof.
  induction ps as [|p rest IH]; intros g g' ps' H; cbn [P2G] in H.
  - inversion H; subst. simpl. destruct (total_momentum g'). mat_ring.
  - destruct (scatter c svd p ndrange33 g) as [g1|] eqn:Hsc; cbn [bind] in H;
      [|discriminate].
    destruct (P2G c svd g1 rest) as [[g2 rest']|] eqn:Hr; cbn [bind] in H;
      [|discriminate].
    inversion H; subst.
    rewrite (IH _ _ _ Hr), (scatter_momentum c svd p _ _ _ Hsc), stencil_momentum.
    cbn [particle_momentum]. mat_ring.
Qed.

Lemma clear_grid_momentum c (g : Grid) : total_momentum (clear_grid c g) = vzero.
Proof.
  unfold total_momentum, clear_grid, map_nodes, vzero. generalize 0%nat.
  induction g as [|h t IH]; intro k; simpl; [reflexivity|].
  specialize (IH (S k)). injection IH as H1 H2. rewrite H1, H2. f_equal; lra.
Qed.

(** X8: P2G conserves momentum: whenever it succeeds on the cleared grid,
    the node momenta sum to the sum of p_mass * v over the particles; the
    stress and affine terms add no net momentum. *)
Theorem p2g_momentum_conservation :
  forall (c : Params) (svd : Mat2 -> Mat2 * Mat2 * Mat2) (g g' : Grid)
         (ps ps' : list Particle),
    P2G c svd (clear_grid c g) ps = Some (g', ps') ->
    total_momentum g' = particle_momentum c ps.
Proof.
  intros c svd g g' ps ps' H.
  rewrite (P2G_momentum c svd ps _ _ _ H), clear_grid_momentum.
  destruct (particle_momentum c ps). mat_ring.
Qed.

Lemma drifting_stencil : stencil_in_grid source_params drifting_particle.
Proof. exact (centre_stencil 0). Qed.

Lemma p2g_momentum_conservation_witness :
  exists (g' : Grid) (ps' : list Particle),
    P2G source_params svd_diag (clear_grid source_params drift_grid)
      [drifting_particle; centre_particle 2] = Some (g', ps') /\
    total_momentum g' =
    particle_momentum source_params [drifting_particle; centre_particle 2].
Proof.
  destruct (P2G_ok source_params svd_diag [drifting_particle; centre_particle 2]
              (clear_grid source_params drift_grid)
              (clear_grid_shape _ _ drift_grid_shape)
              (Forall_cons _ drifting_stencil
                 (Forall_cons _ (centre_stencil 2) (Forall_nil _))))
    as (g' & HP & _).
  exists g', (map (p2g_particle source_params svd_diag)
                [drifting_particle; centre_particle 2]).
  split; [exact HP|].
  exact (p2g_momentum_conservation source_params svd_diag drift_grid g' _ _ HP).
Defined.

(** ** Weights of a particle inside the domain *)

Lemma weight_sum_stencil c (p : Particle) : weight_sum c p ndrange33 = 1.
Proof.
  unfold weight_sum, ndrange33, weight_of, bspline. simpl nth. simpl vx. simpl vy.
  generalize (vx (fx_of c p)) (vy (fx_of c p)). intros a b.
  unfold w0, w1, w2. lra.
Qed.

Lemma fx_of_range c (p : Particle) :
  beyond_half_cell c p ->
  0.5 <= vx (fx_of c p) < 1.5 /\ 0.5 <= vy (fx_of c p) < 1.5.
Proof.
  intros [Hx Hy]. unfold fx_of, base_of, vcast_int, vsub_s, vscale_r, vsub, cast_float.
  simpl. split; apply fx_coordinate_range; lra.
Qed.

Lemma w_range (f : R) :
  0.5 <= f < 1.5 ->
  0 <= w0 f <= 0.5 /\ 0.5 <= w1 f <= 0.75 /\ 0 <= w2 f <= 0.5.
Proof.
  intro H. unfold w0, w1, w2. simpl pow. rewrite !Rmult_1_r.
  assert (A : 0 <= (f - 0.5) * (1.5 - f)) by (apply Rmult_le_pos; lra).
  assert (B : 0 <= (1.5 - f) * (1.5 - f)) by (apply Rmult_le_pos; lra).
  assert (C : 0 <= (f - 0.5) * (f - 0.5)) by (apply Rmult_le_pos; lra).
  assert (D : 0 <= (f - 1) * (f - 1)) by (apply Rle_0_sqr).
  repeat split; lra.
Qed.

Lemma product_range (a b : R) :
  0 <= a <= 0.75 -> 0 <= b <= 0.75 -> 0 <= a * b <= 0.75 * 0.75.
Proof.
  intros Ha Hb. split.
  - apply Rmult_le_pos; lra.
  - apply Rmult_le_compat; lra.
Qed.

Lemma weight_of_range c (p : Particle) (i j : nat) :
  beyond_half_cell c p -> In (i, j) ndrange33 -> 0 <= weight_of c p i j <= 0.75 * 0.75.
Proof.
  intros Hb Hin. destruct (fx_of_range c p Hb) as [Hx Hy].
  pose proof (w_range _ Hx) as (A0 & A1 & A2).
  pose proof (w_range _ Hy) as (B0 & B1 & B2).
  unfold weight_of, bspline. unfold ndrange33 in Hin. simpl in Hin.
  revert A0 A1 A2 B0 B1 B2. clear Hx Hy Hb.
  generalize (vx (fx_of c p)) (vy (fx_of c p)). intros a b A0 A1 A2 B0 B1 B2.
  repeat (destruct Hin as [Hin|Hin];
          [injection Hin as <- <-; cbn [nth vx vy]; apply product_range; lra|]).
  contradiction.
Qed.

(** X9: for a particle whose grid-space coordinates are at least half a cell,
    the fractional offset lies in [0.5, 1.5) on both axes and each of the nine
    weights lies in [0, 0.5625]. *)
Theorem weights_in_unit_range :
  forall (c : Params) (p : Particle),
    beyond_half_cell c p ->
    (0.5 <= vx (fx_of c p) < 1.5 /\ 0.5 <= vy (fx_of c p) < 1.5) /\
    forall i j : nat, In (i, j) ndrange33 -> 0 <= weight_of c p i j <= 0.5625.
Proof.
  intros c p Hb. split; [now apply fx_of_range|].
  intros i j Hin. pose proof (weight_of_range c p i j Hb Hin). lra.
Qed.

Lemma centre_beyond_half_cell (mat : Z) :
  beyond_half_cell source_params (centre_particle mat).
Proof. unfold beyond_half_cell, inv_dx. simpl. lra. Qed.

Lemma weights_in_unit_range_witness :
  (0.5 <= vx (fx_of source_params (centre_particle 1)) < 1.5 /\
   0.5 <= vy (fx_of source_params (centre_particle 1)) < 1.5) /\
  forall i j : nat, In (i, j) ndrange33 ->
    0 <= weight_of source_params (centre_particle 1) i j <= 0.5625.
Proof.
  exact (weights_in_unit_range source_params (centre_particle 1)
           (centre_beyond_half_cell 1)).
Defined.

(** ** Node masses are non-negative *)

Lemma scatter_mass_nonneg c svd (p : Particle) (offs : list (nat * nat)) :
  0 <= p_mass c ->
  (forall i j, In (i, j) offs -> 0 <= weight_of c p i j) ->
  forall g g' : Grid,
    Forall (fun nd => 0 <= grid_m nd) g ->
    scatter c svd p offs g = Some g' ->
    Forall (fun nd => 0 <= grid_m nd) g'.
Proof.
  intros Hm. induction offs as [|[i j] rest IH]; intros Hw g g' Hg H;
    cbn [scatter] in H.
  - now injection H as <-.
  - unfold grid_add in H at 1.
    destruct (grid_get c g (iadd (base_of c p) (offset_of i j))) as [nd|] eqn:Hnd;
      cbn [bind] in H; [|discriminate].
    apply IH in H; auto.
    + intros i' j' H'. apply Hw. now right.
    + apply set_nth_Forall; [exact Hg|]. simpl.
      assert (0 <= grid_m nd).
      { unfold grid_get in Hnd. destruct (in_grid c _); [|discriminate].
        apply nth_error_In in Hnd. rewrite Forall_forall in Hg. auto. }
      pose proof (Hw i j (or_introl eq_refl)). nra.
Qed.

Lemma p_mass_nonneg c : 0 <= p_mass c.
Proof. unfold p_mass, p_vol, p_rho. nra. Qed.

Lemma clear_grid_masses c (g : Grid) :
  Forall (fun nd => 0 <= grid_m nd) (clear_grid c g).
Proof.
  unfold clear_grid, map_nodes. generalize 0%nat.
  induction g as [|h t IH]; intro k; simpl; constructor; auto. simpl. lra.
Qed.

(** X10: after P2G on the cleared grid no node has a negative mass, when
    every particle's grid-space coordinates are at least half a cell. *)
Theorem p2g_masses_nonnegative :
  forall (c : Params) (svd : Mat2 -> Mat2 * Mat2 * Mat2) (g g' : Grid)
         (ps ps' : list Particle),
    Forall (beyond_half_cell c) ps ->
    P2G c svd (clear_grid c g) ps = Some (g', ps') ->
    Forall (fun nd => 0 <= grid_m nd) g'.
Proof.
  intros c svd g g' ps ps' Hall H.
  pose proof (clear_grid_masses c g) as H0.
  revert H0 H. generalize (clear_grid c g). clear g. revert g' ps'.
  induction Hall as [|p rest Hp Hrest IH]; intros g' ps' g Hg H; cbn [P2G] in H.
  - now inversion H; subst.
  - destruct (scatter c svd p ndrange33 g) as [g1|] eqn:Hsc; cbn [bind] in H;
      [|discriminate].
    destruct (P2G c svd g1 rest) as [[g2 rest']|] eqn:Hr; cbn [bind] in H;
      [|discriminate].
    inversion H; subst. eapply IH; [|exact Hr].
    eapply scatter_mass_nonneg; [apply p_mass_nonneg| |exact Hg|exact Hsc].
    intros i j Hin. apply (weight_of_range c p i j Hp Hin).
Qed.

Lemma p2g_masses_nonnegative_witness :
  exists (g' : Grid) (ps' : list Particle),
    P2G source_params svd_diag (clear_grid source_params drift_grid)
      [centre_particle 0; centre_particle 1] = Some (g', ps') /\
    Forall (fun nd => 0 <= grid_m nd) g'.
Proof.
  destruct (P2G_ok source_params svd_diag [centre_particle 0; centre_particle 1]
              (clear_grid source_params drift_grid)
              (clear_grid_shape _ _ drift_grid_shape)
              (Forall_cons _ (centre_stencil 0)
                 (Forall_cons _ (centre_stencil 1) (Forall_nil _))))
    as (g' & HP & _).
  exists g', (map (p2g_particle source_params svd_diag)
                [centre_particle 0; centre_particle 1]).
  split; [exact HP|].
  refine (p2g_masses_nonnegative source_params svd_diag drift_grid g' _ _ _ HP).
  exact (Forall_cons _ (centre_beyond_half_cell 0)
           (Forall_cons _ (centre_beyond_half_cell 1) (Forall_nil _))).
Defined.

(** ** G2P on simple velocity fields *)

Lemma gather_uniform c (g : Grid) (p : Particle) (u : Vec2)
    (offs : list (nat * nat)) :
  (forall i j, In (i, j) offs ->
     exists nd, grid_get c g (iadd (base_of c p) (offset_of i j)) = Some nd /\
                grid_v nd = u) ->
  forall acc,
    gather c g p offs acc =
    Some (vadd (fst acc) (vscale (weight_sum c p offs) u),
          madd (snd acc)
            (mscale (4 * inv_dx c) (outer_product u (weight_moment c p offs)))).
Proof.
  induction offs as [|[i j] rest IH]; intros Hin [av aC]; cbn [gather].
  - simpl. f_equal. destruct av, aC. f_equal; mat_ring.
  - destruct (Hin i j (or_introl eq_refl)) as (nd & -> & Hu). cbn [bind].
    rewrite IH by (intros i' j' H'; apply Hin; now right).
    rewrite Hu. cbn [fst snd weight_sum weight_moment].
    destruct av, aC, u. f_equal. f_equal; mat_ring.
Qed.

Lemma weight_moment_stencil c (p : Particle) : weight_moment c p ndrange33 = vzero.
Proof.
  unfold ndrange33, weight_moment, weight_of, bspline, offset_of, cast_float.
  cbn [nth vx vy ix iy Z.of_nat Pos.of_succ_nat Pos.succ].
  generalize (fx_of c p). intros [a b].
  unfold vadd, vscale, vsub, vzero, w0, w1, w2. simpl. f_equal; lra.
Qed.

(** X11: G2P reproduces a uniform velocity field exactly: if every node of a
    particle's 3x3 neighbourhood carries the same velocity u, the particle
    gets velocity u, a zero affine matrix and moves by dt * u. *)
Theorem g2p_uniform_field :
  forall (c : Params) (g : Grid) (p : Particle) (u : Vec2),
    stencil_nodes c g p (fun nd => grid_v nd = u) ->
    g2p_particle c g p =
    Some {| x := vadd (x p) (vscale (dt c) u); v := u; C := mzero;
            F := F p; material := material p; Jp := Jp p |}.
Proof.
  intros c g p u H. unfold g2p_particle.
  rewrite (gather_uniform c g p u ndrange33 H).
  rewrite weight_sum_stencil, weight_moment_stencil. cbn [bind fst snd].
  assert (Hv : vadd vzero (vscale 1 u) = u) by (destruct u; mat_ring).
  assert (HC : madd mzero (mscale (4 * inv_dx c) (outer_product u vzero)) = mzero)
    by (destruct u; mat_ring).
  rewrite Hv, HC. reflexivity.
Qed.

Lemma drift_update_stencil (p : Particle) :
  stencil_in_grid source_params p ->
  stencil_nodes source_params (update_gridv source_params drift_grid) p
    (fun nd => grid_v nd = grid_v (update_node source_params drift_node)).
Proof.
  intros Hst i j Hin. exists (update_node source_params drift_node).
  split; [|reflexivity].
  unfold update_gridv. rewrite grid_get_map_nodes, (drift_grid_get _ (Hst i j Hin)).
  reflexivity.
Qed.

Lemma g2p_uniform_field_witness :
  g2p_particle source_params (update_gridv source_params drift_grid)
    (centre_particle 1) =
  Some {| x := vadd (x (centre_particle 1))
                 (vscale (dt source_params)
                    (grid_v (update_node source_params drift_node)));
          v := grid_v (update_node source_params drift_node); C := mzero;
          F := F (centre_particle 1); material := material (centre_particle 1);
          Jp := Jp (centre_particle 1) |}.
Proof.
  exact (g2p_uniform_field source_params _ (centre_particle 1) _
           (drift_update_stencil _ (centre_stencil 1))).
Defined.

Lemma gather_box c (g : Grid) (p : Particle) (lx hx ly hy : R)
    (offs : list (nat * nat)) :
  (forall i j, In (i, j) offs ->
     0 <= weight_of c p i j /\
     exists nd, grid_get c g (iadd (base_of c p) (offset_of i j)) = Some nd /\
                lx <= vx (grid_v nd) <= hx /\ ly <= vy (grid_v nd) <= hy) ->
  forall acc W r,
    lx * W <= vx (fst acc) <= hx * W ->
    ly * W <= vy (fst acc) <= hy * W ->
    gather c g p offs acc = Some r ->
    lx * (W + weight_sum c p offs) <= vx (fst r) <= hx * (W + weight_sum c p offs) /\
    ly * (W + weight_sum c p offs) <= vy (fst r) <= hy * (W + weight_sum c p offs).
Proof.
  induction offs as [|[i j] rest IH]; intros Hin acc W r Hx Hy H; cbn [gather] in H.
  - injection H as <-. simpl. rewrite Rplus_0_r. auto.
  - destruct (Hin i j (or_introl eq_refl)) as (Hw & nd & Hnd & Hbx & Hby).
    rewrite Hnd in H. cbn [bind] in H.
    apply (IH (fun i' j' H' => Hin i' j' (or_intror H')) _
              (W + weight_of c p i j)) in H.
    + cbn [weight_sum]. rewrite <- !Rplus_assoc. exact H.
    + simpl. nra.
    + simpl. nra.
Qed.

(** X12: G2P creates no new extreme velocity: for a particle whose grid-space
    coordinates are at least half a cell, if the velocities of the nine
    nodes it reads lie in a box [lx, hx] x [ly, hy], so does the velocity it
    receives. *)
Theorem g2p_velocity_in_box :
  forall (c : Params) (g : Grid) (p p' : Particle) (lx hx ly hy : R),
    beyond_half_cell c p ->
    stencil_nodes c g p
      (fun nd => lx <= vx (grid_v nd) <= hx /\ ly <= vy (grid_v nd) <= hy) ->
    g2p_particle c g p = Some p' ->
    lx <= vx (v p') <= hx /\ ly <= vy (v p') <= hy.
Proof.
  intros c g p p' lx hx ly hy Hb Hst H. unfold g2p_particle in H.
  destruct (gather c g p ndrange33 (vzero, mzero)) as [[v_pic C_pic]|] eqn:Hg;
    cbn [bind] in H; [|discriminate].
  injection H as <-. simpl.
  apply (gather_box c g p lx hx ly hy ndrange33) with (W := 0) in Hg.
  - rewrite weight_sum_stencil in Hg. simpl in Hg. lra.
  - intros i j Hin. split; [apply (weight_of_range c p i j Hb Hin)|].
    destruct (Hst i j Hin) as (nd & Hnd & HP). eauto.
  - simpl. lra.
  - simpl. lra.
Qed.

Lemma g2p_particle_ok c (g : Grid) (p : Particle) :
  grid_shape c g -> stencil_in_grid c p -> exists p', g2p_particle c g p = Some p'.
Proof.
  intros Hs Hst. unfold g2p_particle.
  destruct (gather_ok c g p ndrange33 Hs Hst (vzero, mzero)) as [[v_pic C_pic] ->].
  cbn [bind]. eauto.
Qed.

Lemma g2p_velocity_in_box_witness :
  exists p' : Particle,
    g2p_particle source_params (update_gridv source_params drift_grid)
      (centre_particle 1) = Some p' /\
    vx (grid_v (update_node source_params drift_node)) <= vx (v p')
      <= vx (grid_v (update_node source_params drift_node)) /\
    vy (grid_v (update_node source_params drift_node)) <= vy (v p')
      <= vy (grid_v (update_node source_params drift_node)).
Proof.
  destruct (g2p_particle_ok source_params (update_gridv source_params drift_grid)
              (centre_particle 1)
              (map_nodes_shape _ _ _ drift_grid_shape) (centre_stencil 1))
    as [p' Hp'].
  exists p'. split; [exact Hp'|].
  refine (g2p_velocity_in_box source_params _ (centre_particle 1) p' _ _ _ _
            (centre_beyond_half_cell 1) _ Hp').
  intros i j Hin.
  destruct (drift_update_stencil _ (centre_stencil 1) i j Hin) as (nd & Hnd & Hu).
  exists nd. split; [exact Hnd|]. rewrite Hu. split; split; apply Rle_refl.
Defined.

(** ** P2G does not depend on the order of the particles *)

Lemma bind_assoc {A B D : Type} (m : option A) (f : A -> option B)
    (h : B -> option D) :
  bind (bind m f) h = bind m (fun a => bind (f a) h).
Proof. now destruct m. Qed.

Lemma set_nth_twice {A : Type} (k : nat) (a b : A) (l : list A) :
  set_nth k a (set_nth k b l) = set_nth k a l.
Proof.
  revert k; induction l as [|h t IH]; intros [|k]; simpl; auto. now rewrite IH.
Qed.

Lemma set_nth_swap {A : Type} (k m : nat) (a b : A) (l : list A) :
  k <> m -> set_nth k a (set_nth m b l) = set_nth m b (set_nth k a l).
Proof.
  revert k m; induction l as [|h t IH]; intros [|k] [|m] Hkm; simpl; auto.
  - congruence.
  - rewrite IH; auto.
Qed.

Lemma nth_error_set_nth c_k (a : Node) (l : Grid) (m : nat) :
  nth_error (set_nth c_k a l) m =
  if Nat.eqb c_k m then option_map (fun _ => a) (nth_error l m) else nth_error l m.
Proof.
  destruct (Nat.eqb_spec c_k m) as [->|Hne].
  - destruct (nth_error l m) as [nd|] eqn:Hm; simpl.
    + apply nth_error_set_nth_same. apply nth_error_Some. congruence.
    + apply nth_error_None. rewrite set_nth_length. now apply nth_error_None.
  - now apply nth_error_set_nth_other.
Qed.

Lemma grid_add_comm c (g : Grid) (I J : IVec2) (a b : Vec2) (m n : R) :
  (g1 <- grid_add c g I a m ;; grid_add c g1 J b n) =
  (g1 <- grid_add c g J b n ;; grid_add c g1 I a m).
Proof.
  unfold grid_add, grid_get.
  destruct (in_grid c I) eqn:HI; destruct (in_grid c J) eqn:HJ;
    cbn [bind]; try reflexivity.
  - destruct (nth_error g (flat c I)) as [nI|] eqn:EI;
      destruct (nth_error g (flat c J)) as [nJ|] eqn:EJ; cbn [bind].
    + rewrite !nth_error_set_nth, EI, EJ.
      destruct (Nat.eqb_spec (flat c I) (flat c J)) as [Heq|Hne].
      * rewrite Heq in *. rewrite Nat.eqb_refl.
        assert (nI = nJ) by congruence. subst nJ.
        cbn [option_map bind]. rewrite !set_nth_twice. do 2 f_equal.
        destruct nI as [[p q] r], a, b. simpl. unfold vadd. simpl.
        f_equal; [f_equal|]; ring.
      * replace (Nat.eqb (flat c J) (flat c I)) with false
          by (symmetry; apply Nat.eqb_neq; congruence).
        cbn [bind]. f_equal. now apply set_nth_swap.
    + rewrite nth_error_set_nth, EJ.
      destruct (Nat.eqb (flat c I) (flat c J)); reflexivity.
    + rewrite nth_error_set_nth, EI.
      destruct (Nat.eqb (flat c J) (flat c I)); reflexivity.
    + reflexivity.
  - destruct (nth_error g (flat c I)); reflexivity.
  - destruct (nth_error g (flat c J)); reflexivity.
Qed.

Lemma grid_add_comm_k c {A : Type} (g : Grid) (I J : IVec2) (a b : Vec2) (m n : R)
    (f : Grid -> option A) :
  (g1 <- grid_add c g I a m ;; g2 <- grid_add c g1 J b n ;; f g2) =
  (g1 <- grid_add c g J b n ;; g2 <- grid_add c g1 I a m ;; f g2).
Proof.
  rewrite <- !bind_assoc. now rewrite grid_add_comm.
Qed.

Lemma add_scatter_comm c svd {A : Type} (p : Particle) (offs : list (nat * nat)) :
  forall (g : Grid) (I : IVec2) (a : Vec2) (m : R) (f : Grid -> option A),
    (g1 <- grid_add c g I a m ;; g2 <- scatter c svd p offs g1 ;; f g2) =
    (g1 <- scatter c svd p offs g ;; g2 <- grid_add c g1 I a m ;; f g2).
Proof.
  induction offs as [|[i j] rest IH]; intros g I a m f; cbn [scatter].
  - reflexivity.
  - rewrite bind_assoc.
    transitivity
      (g1 <- grid_add c g I a m ;;
       g2 <- grid_add c g1 (iadd (base_of c p) (offset_of i j))
               (vscale (weight_of c p i j)
                  (vadd (vscale (p_mass c) (v p))
                     (mvec (affine c svd p)
                        (vscale_r (vsub (cast_float (offset_of i j)) (fx_of c p))
                           (dx c)))))
               (weight_of c p i j * p_mass c) ;;
       g3 <- scatter c svd p rest g2 ;; f g3).
    { destruct (grid_add c g I a m) as [g1|]; cbn [bind]; [|reflexivity].
      now rewrite bind_assoc. }
    rewrite grid_add_comm_k.
    match goal with
    | |- bind ?x _ = bind ?x _ => destruct x as [g1|]; cbn [bind]; [|reflexivity]
    end.
    apply IH.
Qed.

Lemma scatter_scatter_comm c svd {A : Type} (p q : Particle)
    (offs offs' : list (nat * nat)) :
  forall (g : Grid) (f : Grid -> option A),
    (g1 <- scatter c svd p offs g ;; g2 <- scatter c svd q offs' g1 ;; f g2) =
    (g1 <- scatter c svd q offs' g ;; g2 <- scatter c svd p offs g1 ;; f g2).
Proof.
  induction offs as [|[i j] rest IH]; intros g f.
  - cbn [scatter bind].
    destruct (scatter c svd q offs' g); reflexivity.
  - cbn [scatter]. rewrite bind_assoc.
    transitivity
      (g1 <- grid_add c g (iadd (base_of c p) (offset_of i j))
               (vscale (weight_of c p i j)
                  (vadd (vscale (p_mass c) (v p))
                     (mvec (affine c svd p)
                        (vscale_r (vsub (cast_float (offset_of i j)) (fx_of c p))
                           (dx c)))))
               (weight_of c p i j * p_mass c) ;;
       g2 <- scatter c svd q offs' g1 ;;
       g3 <- scatter c svd p rest g2 ;; f g3).
    { match goal with
      | |- bind ?x _ = bind ?x _ => destruct x as [g1|]; cbn [bind]; [|reflexivity]
      end.
      apply IH. }
    rewrite add_scatter_comm.
    destruct (scatter c svd q offs' g) as [g1|]; cbn [bind]; [|reflexivity].
    now rewrite bind_assoc.
Qed.

Lemma P2G_scatter_all c svd (ps : list Particle) :
  forall g : Grid,
    P2G c svd g ps =
    (g' <- scatter_all c svd ps g ;; Some (g', map (p2g_particle c svd) ps)).
Proof.
  induction ps as [|p rest IH]; intro g; cbn [P2G scatter_all map].
  - reflexivity.
  - rewrite bind_assoc.
    destruct (scatter c svd p ndrange33 g) as [g1|]; cbn [bind]; [|reflexivity].
    rewrite IH. now destruct (scatter_all c svd rest g1).
Qed.

Lemma scatter_all_permutation c svd (ps ps' : list Particle) :
  Permutation ps ps' ->
  forall g : Grid, scatter_all c svd ps g = scatter_all c svd ps' g.
Proof.
  induction 1 as [|p l l' Hperm IH|p q l|l l' l'' H1 IH1 H2 IH2]; intro g.
  - reflexivity.
  - cbn [scatter_all].
    destruct (scatter c svd p ndrange33 g); cbn [bind]; [apply IH|reflexivity].
  - cbn [scatter_all]. apply scatter_scatter_comm.
  - now rewrite IH1.
Qed.

(** X13: over the reals the grid that P2G builds does not depend on the
    order in which the particles are visited: on a permutation of the
    particle list P2G fails or succeeds alike and, when it succeeds, builds
    the same grid. *)
Theorem p2g_order_independent :
  forall (c : Params) (svd : Mat2 -> Mat2 * Mat2 * Mat2) (g : Grid)
         (ps ps' : list Particle),
    Permutation ps ps' ->
    option_map fst (P2G c svd g ps) = option_map fst (P2G c svd g ps').
Proof.
  intros c svd g ps ps' Hperm.
  rewrite !P2G_scatter_all, (scatter_all_permutation c svd ps ps' Hperm g).
  now destruct (scatter_all c svd ps' g).
Qed.

Lemma p2g_order_independent_witness :
  option_map fst
    (P2G source_params svd_diag drift_grid [drifting_particle; centre_particle 2]) =
  option_map fst
    (P2G source_params svd_diag drift_grid [centre_particle 2; drifting_particle]).
Proof.
  apply (p2g_order_independent source_params svd_diag drift_grid).
  apply perm_swap.
Defined.

(** ** Free fall of particles at rest *)

Lemma grid_add_mass_mono c (g g' : Grid) (I : IVec2) (dv : Vec2) (dm : R) :
  0 <= dm -> grid_add c g I dv dm = Some g' ->
  forall k nd, nth_error g k = Some nd ->
    exists nd', nth_error g' k = Some nd' /\ grid_m nd <= grid_m nd'.
Proof.
  intros Hdm H k nd Hk. unfold grid_add, grid_get in H.
  destruct (in_grid c I); [|discriminate].
  destruct (nth_error g (flat c I)) as [n0|] eqn:E0; cbn [bind] in H; [|discriminate].
  injection H as <-. rewrite nth_error_set_nth.
  destruct (Nat.eqb_spec (flat c I) k) as [Heq|Hne].
  - rewrite Hk. simpl. eexists; split; [reflexivity|]. simpl.
    rewrite Heq in E0. assert (n0 = nd) by congruence. subst. lra.
  - exists nd. split; [exact Hk|lra].
Qed.

Lemma grid_add_mass_there c (g g' : Grid) (I : IVec2) (dv : Vec2) (dm : R) :
  Forall (fun nd => 0 <= grid_m nd) g ->
  grid_add c g I dv dm = Some g' ->
  exists nd', nth_error g' (flat c I) = Some nd' /\ dm <= grid_m nd'.
Proof.
  intros Hg H. unfold grid_add, grid_get in H.
  destruct (in_grid c I); [|discriminate].
  destruct (nth_error g (flat c I)) as [n0|] eqn:E0; cbn [bind] in H; [|discriminate].
  injection H as <-. rewrite nth_error_set_nth, Nat.eqb_refl, E0. simpl.
  eexists; split; [reflexivity|]. simpl.
  apply nth_error_In in E0. rewrite Forall_forall in Hg.
  specialize (Hg _ E0). simpl in Hg. lra.
Qed.

Lemma scatter_mass_mono c svd (p : Particle) (offs : list (nat * nat)) :
  (forall i j, In (i, j) offs -> 0 <= weight_of c p i j) ->
  forall g g' : Grid,
    scatter c svd p offs g = Some g' ->
    forall k nd, nth_error g k = Some nd ->
      exists nd', nth_error g' k = Some nd' /\ grid_m nd <= grid_m nd'.
Proof.
  induction offs as [|[i j] rest IH]; intros Hw g g' H k nd Hk; cbn [scatter] in H.
  - injection H as <-. exists nd. split; [exact Hk|lra].
  - match type of H with
    | bind ?m _ = _ => destruct m as [g1|] eqn:Hadd; cbn [bind] in H; [|discriminate]
    end.
    pose proof (Hw i j (or_introl eq_refl)) as Hwij.
    pose proof (p_mass_nonneg c) as Hpm.
    destruct (grid_add_mass_mono c _ _ _ _ _ (Rmult_le_pos _ _ Hwij Hpm) Hadd k nd Hk)
      as (n1 & Hn1 & Hle1).
    destruct (IH (fun i' j' H' => Hw i' j' (or_intror H')) g1 g' H k n1 Hn1)
      as (n2 & Hn2 & Hle2).
    exists n2. split; [exact Hn2|lra].
Qed.

Lemma scatter_mass_covers c svd (p : Particle) (offs : list (nat * nat)) :
  (forall i j, In (i, j) offs -> 0 <= weight_of c p i j) ->
  forall g g' : Grid,
    Forall (fun nd => 0 <= grid_m nd) g ->
    scatter c svd p offs g = Some g' ->
    forall i j, In (i, j) offs ->
      exists nd, nth_error g' (flat c (iadd (base_of c p) (offset_of i j))) = Some nd /\
                 weight_of c p i j * p_mass c <= grid_m nd.
Proof.
  induction offs as [|[i0 j0] rest IH]; intros Hw g g' Hg H i j Hin;
    [contradiction|].
  cbn [scatter] in H.
  match type of H with
  | bind ?m _ = _ => destruct m as [g1|] eqn:Hadd; cbn [bind] in H; [|discriminate]
  end.
  assert (Hw' : forall i' j', In (i', j') rest -> 0 <= weight_of c p i' j')
    by (intros i' j' H'; apply Hw; now right).
  destruct Hin as [Heq|Hin].
  - injection Heq as <- <-.
    destruct (grid_add_mass_there c _ _ _ _ _ Hg Hadd) as (n1 & Hn1 & Hle1).
    destruct (scatter_mass_mono c svd p rest Hw' g1 g' H _ n1 Hn1) as (n2 & Hn2 & Hle2).
    exists n2. split; [exact Hn2|lra].
  - apply (IH Hw' g1 g'); auto.
    assert (Hone : scatter c svd p [(i0, j0)] g = Some g1)
      by (cbn [scatter]; rewrite Hadd; reflexivity).
    apply (scatter_mass_nonneg c svd p [(i0, j0)] (p_mass_nonneg c)) with (g := g);
      auto.
    intros i' j' [H'|[]]. injection H' as <- <-. apply Hw. now left.
Qed.

Lemma P2G_mass_mono c svd (ps : list Particle) :
  Forall (beyond_half_cell c) ps ->
  forall (g g' : Grid) (ps' : list Particle),
    P2G c svd g ps = Some (g', ps') ->
    forall k nd, nth_error g k = Some nd ->
      exists nd', nth_error g' k = Some nd' /\ grid_m nd <= grid_m nd'.
Proof.
  induction 1 as [|p rest Hp Hrest IH]; intros g g' ps' H k nd Hk; cbn [P2G] in H.
  - inversion H; subst. exists nd. split; [exact Hk|lra].
  - destruct (scatter c svd p ndrange33 g) as [g1|] eqn:Hsc; cbn [bind] in H;
      [|discriminate].
    destruct (P2G c svd g1 rest) as [[g2 rest']|] eqn:Hr; cbn [bind] in H;
      [|discriminate].
    inversion H; subst.
    destruct (scatter_mass_mono c svd p ndrange33
                (fun i j Hin => proj1 (weight_of_range c p i j Hp Hin))
                g g1 Hsc k nd Hk) as (n1 & Hn1 & Hle1).
    destruct (IH g1 g' rest' Hr k n1 Hn1) as (n2 & Hn2 & Hle2).
    exists n2. split; [exact Hn2|lra].
Qed.

Lemma P2G_mass_covers c svd (ps : list Particle) :
  Forall (beyond_half_cell c) ps ->
  forall (g g' : Grid) (ps' : list Particle),
    Forall (fun nd => 0 <= grid_m nd) g ->
    P2G c svd g ps = Some (g', ps') ->
    forall p i j, In p ps -> In (i, j) ndrange33 ->
      exists nd, nth_error g' (flat c (iadd (base_of c p) (offset_of i j))) = Some nd /\
                 weight_of c p i j * p_mass c <= grid_m nd.
Proof.
  induction 1 as [|q rest Hq Hrest IH]; intros g g' ps' Hg H p i j Hp Hin;
    [contradiction|].
  cbn [P2G] in H.
  destruct (scatter c svd q ndrange33 g) as [g1|] eqn:Hsc; cbn [bind] in H;
    [|discriminate].
  destruct (P2G c svd g1 rest) as [[g2 rest']|] eqn:Hr; cbn [bind] in H;
    [|discriminate].
  inversion H; subst.
  assert (Hw : forall i' j', In (i', j') ndrange33 -> 0 <= weight_of c q i' j')
    by (intros i' j' H'; apply (weight_of_range c q i' j' Hq H')).
  destruct Hp as [->|Hp].
  - destruct (scatter_mass_covers c svd p ndrange33 Hw g g1 Hg Hsc i j Hin)
      as (n1 & Hn1 & Hle1).
    destruct (P2G_mass_mono c svd rest Hrest g1 g' rest' Hr _ n1 Hn1)
      as (n2 & Hn2 & Hle2).
    exists n2. split; [exact Hn2|lra].
  - apply (IH g1 g' rest'); auto.
    apply (scatter_mass_nonneg c svd q ndrange33 (p_mass_nonneg c) Hw g g1 Hg Hsc).
Qed.

Lemma wall_zero (n i : Z) : wall n i 0 = 0.
Proof.
  unfold wall. destruct (i <? 3)%Z; destruct (i >? n - 3)%Z; simpl;
    repeat innermost_Rlt_dec; try reflexivity; lra.
Qed.

Lemma wall_nonpos_above (n j : Z) (b : R) :
  (3 <= j)%Z -> b <= 0 -> wall n j b = b.
Proof.
  intros Hj Hb. unfold wall.
  replace (j <? 3)%Z with false by (symmetry; apply Z.ltb_ge; lia).
  simpl. destruct (Rlt_dec 0 b) as [Hlt|_]; [lra|].
  now rewrite andb_false_r.
Qed.

Lemma fall_node c (i j : Z) (nd : Node) (w : R) :
  grid_v nd = vzero -> (3 <= j)%Z -> 0 <= dt c * gravity c ->
  0 <= w -> 0 < p_mass c -> w * p_mass c <= grid_m nd ->
  vscale w (grid_v (boundary_node c i j (update_node c nd))) =
  vscale w (vec2 0 (- (dt c * gravity c))).
Proof.
  intros Hv Hj Hg Hw Hpm Hm. rewrite boundary_node_axes. cbn [grid_v].
  unfold update_node. destruct (Rlt_dec 0 (grid_m nd)) as [Hpos|Hnpos].
  - cbn [grid_v]. rewrite Hv. unfold vscale, vzero. cbn [vx vy].
    replace (1 / grid_m nd * 0) with 0 by (unfold Rdiv; ring).
    rewrite wall_zero, wall_nonpos_above by (auto; lra).
    f_equal; ring.
  - rewrite Hv. unfold vzero. cbn [vx vy]. rewrite !wall_zero.
    assert (w = 0) by nra. subst w. unfold vscale. cbn [vx vy]. f_equal; ring.
Qed.

Lemma gather_weighted c (g : Grid) (p : Particle) (u : Vec2)
    (offs : list (nat * nat)) :
  (forall i j, In (i, j) offs ->
     exists nd, grid_get c g (iadd (base_of c p) (offset_of i j)) = Some nd /\
                vscale (weight_of c p i j) (grid_v nd) =
                vscale (weight_of c p i j) u) ->
  forall acc,
    gather c g p offs acc =
    Some (vadd (fst acc) (vscale (weight_sum c p offs) u),
          madd (snd acc)
            (mscale (4 * inv_dx c) (outer_product u (weight_moment c p offs)))).
Proof.
  induction offs as [|[i j] rest IH]; intros Hin [av aC]; cbn [gather].
  - simpl. f_equal. destruct av, aC. f_equal; mat_ring.
  - destruct (Hin i j (or_introl eq_refl)) as (nd & -> & Hu). cbn [bind].
    rewrite IH by (intros i' j' H'; apply Hin; now right).
    cbn [fst snd weight_sum weight_moment].
    set (w := weight_of c p i j) in *.
    destruct (grid_v nd) as [gx gy]. destruct u as [ux uy].
    unfold vscale in Hu. cbn [vx vy] in Hu. injection Hu as Hx Hy.
    destruct av as [a0 a1], aC as [c00 c01 c10 c11].
    generalize (vsub (cast_float (offset_of i j)) (fx_of c p)). intros [d0 d1].
    generalize (weight_sum c p rest) (weight_moment c p rest). intros W [M0 M1].
    unfold vadd, vscale, madd, mscale, outer_product. cbn [vx vy fst snd m00 m01 m10 m11].
    f_equal. f_equal.
    + f_equal.
      * replace (a0 + w * gx + W * ux) with (a0 + (w * gx) + W * ux) by ring.
        rewrite Hx. ring.
      * replace (a1 + w * gy + W * uy) with (a1 + (w * gy) + W * uy) by ring.
        rewrite Hy. ring.
    + f_equal.
      * replace (4 * inv_dx c * w * (gx * d0)) with (4 * inv_dx c * d0 * (w * gx)) by ring.
        rewrite Hx. ring.
      * replace (4 * inv_dx c * w * (gx * d1)) with (4 * inv_dx c * d1 * (w * gx)) by ring.
        rewrite Hx. ring.
      * replace (4 * inv_dx c * w * (gy * d0)) with (4 * inv_dx c * d0 * (w * gy)) by ring.
        rewrite Hy. ring.
      * replace (4 * inv_dx c * w * (gy * d1)) with (4 * inv_dx c * d1 * (w * gy)) by ring.
        rewrite Hy. ring.
Qed.

Lemma p_mass_pos c : (0 < n_grid c)%Z -> 0 < p_mass c.
Proof.
  intro Hn. unfold p_mass, p_vol, p_rho, dx.
  assert (HN : 0 < IZR (n_grid c)) by (apply (IZR_lt 0); exact Hn).
  assert (Hd : 0 < 1 / IZR (n_grid c)) by (apply Rdiv_lt_0_compat; lra).
  set (d := 1 / IZR (n_grid c)) in *. simpl pow. nra.
Qed.

Lemma band_beyond_half_cell c (p : Particle) :
  (0 < n_grid c)%Z -> in_band c p -> beyond_half_cell c p.
Proof.
  intros Hn [Hx Hy]. unfold beyond_half_cell.
  pose proof (band_coordinate c _ Hn Hx). pose proof (band_coordinate c _ Hn Hy).
  split; lra.
Qed.

Lemma base_y_above_floor c (p : Particle) :
  (0 < n_grid c)%Z -> 4 * dx c <= vy (x p) -> (3 <= iy (base_of c p))%Z.
Proof.
  intros Hn Hy. unfold base_of, vcast_int, vsub_s, vscale_r. simpl.
  assert (Hr : 3.5 <= vy (x p) * inv_dx c - 0.5).
  { unfold dx, inv_dx in *.
    assert (HN : 0 < IZR (n_grid c)) by (apply (IZR_lt 0); exact Hn).
    set (N := IZR (n_grid c)) in *.
    assert (Hd : 1 / N * N = 1) by (field; lra).
    set (d := 1 / N) in *. nra. }
  destruct (cast_int_floor (vy (x p) * inv_dx c - 0.5)) as [H1 H2]; [lra|].
  assert (H : (2 < cast_int (vy (x p) * inv_dx c - 0.5))%Z) by (apply lt_IZR; lra).
  lia.
Qed.

Lemma G2P_map c (g : Grid) (f : Particle -> Particle) (ps : list Particle) :
  (forall p, In p ps -> g2p_particle c g p = Some (f p)) ->
  G2P c g ps = Some (map f ps).
Proof.
  induction ps as [|p rest IH]; intro H; cbn [G2P map].
  - reflexivity.
  - rewrite (H p (or_introl eq_refl)). cbn [bind].
    rewrite IH by (intros q Hq; apply H; now right). reflexivity.
Qed.

Lemma rest_map_p2g c svd (ps : list Particle) :
  svd_exact_at svd mident ->
  Forall (fun p => C p = mzero /\ F p = mident) ps ->
  map (p2g_particle c svd) ps = ps.
Proof.
  intros Hsvd Hall. induction Hall as [|p rest [HC HF] Hrest IH]; cbn [map].
  - reflexivity.
  - now rewrite IH, (rest_p2g_particle c svd p Hsvd HC HF).
Qed.

(* what G2P reads for a particle at rest after the grid stages *)
Lemma rest_g2p_falls c (g1 : Grid) (p : Particle) :
  (0 < n_grid c)%Z -> 0 <= dt c * gravity c ->
  still g1 ->
  rests_inside c p ->
  (forall i j, In (i, j) ndrange33 ->
     exists nd, nth_error g1 (flat c (iadd (base_of c p) (offset_of i j))) = Some nd /\
                weight_of c p i j * p_mass c <= grid_m nd) ->
  g2p_particle c (enforce_boundary c (update_gridv c g1)) p = Some (falling c p).
Proof.
  intros Hn Hg Hstill (Hv & HC & HF & Hband & Hy) Hcov.
  pose proof (band_stencil c p Hn Hband) as Hst.
  pose proof (band_beyond_half_cell c p Hn Hband) as Hbh.
  pose proof (base_y_above_floor c p Hn Hy) as Hby.
  unfold g2p_particle.
  rewrite (gather_weighted c _ p (vec2 0 (- (dt c * gravity c))) ndrange33).
  - rewrite weight_sum_stencil, weight_moment_stencil. cbn [bind fst snd].
    unfold falling. rewrite HF. f_equal. f_equal; mat_ring.
  - intros i j Hin. destruct (Hcov i j Hin) as (nd & Hnd & Hm).
    exists (boundary_node c (ix (iadd (base_of c p) (offset_of i j)))
              (iy (iadd (base_of c p) (offset_of i j))) (update_node c nd)).
    split.
    + unfold enforce_boundary, update_gridv. rewrite !grid_get_map_nodes.
      unfold grid_get. rewrite (Hst i j Hin), Hnd. reflexivity.
    + apply fall_node; auto.
      * unfold still in Hstill. rewrite Forall_forall in Hstill.
        apply Hstill. eapply nth_error_In; eauto.
      * unfold iadd, offset_of. cbn [iy]. lia.
      * apply (weight_of_range c p i j Hbh Hin).
      * now apply p_mass_pos.
Qed.

(** X14: free fall.  When every particle is at rest and undeformed (zero
    velocity, zero affine matrix, identity F), lies in the band and at least 4
    cells above the floor, dt * gravity is not negative and svd decomposes
    the identity, one substep gives every particle exactly the velocity
    (0, - dt * gravity), moves it by dt times that velocity, and leaves C, F,
    Jp and the material as they were. *)
Theorem rest_particles_fall :
  forall (c : Params) (svd : Mat2 -> Mat2 * Mat2 * Mat2) (g : Grid)
         (ps : list Particle),
    (0 < n_grid c)%Z ->
    grid_shape c g ->
    0 <= dt c * gravity c ->
    svd_exact_at svd mident ->
    Forall (rests_inside c) ps ->
    exists g' : Grid, substep c svd (g, ps) = Some (g', map (falling c) ps).
Proof.
  intros c svd g ps Hn Hs Hg Hsvd Hall.
  assert (Hst : Forall (stencil_in_grid c) ps).
  { eapply Forall_impl; [|exact Hall]. intros p (_ & _ & _ & Hb & _).
    now apply band_stencil. }
  assert (Hbh : Forall (beyond_half_cell c) ps).
  { eapply Forall_impl; [|exact Hall]. intros p (_ & _ & _ & Hb & _).
    now apply band_beyond_half_cell. }
  assert (Hrest : Forall (fun p => C p = mzero /\ F p = mident) ps).
  { eapply Forall_impl; [|exact Hall]. intros p (_ & HC & HF & _). auto. }
  assert (Hmom : Forall (fun p => v p = vzero /\ affine c svd p = mzero) ps).
  { eapply Forall_impl; [|exact Hall]. intros p (Hv & HC & HF & _).
    split; [exact Hv|]. apply (rest_constitutive c svd p Hsvd HC HF). }
  unfold substep. simpl fst. simpl snd.
  destruct (P2G_ok c svd ps (clear_grid c g) (clear_grid_shape c g Hs) Hst)
    as (g1 & HP & Hs1 & _).
  pose proof (P2G_still c svd ps Hmom _ _ _ (clear_grid_still c g) HP) as Hstill.
  pose proof (P2G_mass_covers c svd ps Hbh _ _ _ (clear_grid_masses c g) HP) as Hcov.
  rewrite HP. cbn [bind]. rewrite (rest_map_p2g c svd ps Hsvd Hrest).
  rewrite (G2P_map c _ (falling c) ps).
  - cbn [bind]. eauto.
  - intros p Hp. rewrite Forall_forall in Hall.
    apply rest_g2p_falls; auto.
Qed.

(** ** initialize *)

Lemma init_particle_state (np : Z) (rnd : Z -> nat -> R) (i : Z) :
  unit_random rnd ->
  v (init_particle np rnd i) = vzero /\ C (init_particle np rnd i) = mzero /\
  F (init_particle np rnd i) = mident /\ Jp (init_particle np rnd i) = 1 /\
  in_material_region (init_particle np rnd i).
Proof.
  intro Hr. pose proof (Hr i 0%nat) as H0. pose proof (Hr i 1%nat) as H1.
  unfold init_particle, in_material_region.
  destruct (Rlt_dec (IZR i) (IZR np * 2 / 3));
    [|destruct (Rlt_dec (IZR i) (IZR np * 5 / 6))];
    cbn [v C F Jp material x vx vy]; repeat split; try reflexivity.
  - left. repeat split; lra.
  - right; left. repeat split; lra.
  - right; right. repeat split; lra.
Qed.

(** X15: initialize() creates n_particles particles, each at rest with zero
    affine matrix, identity F and Jp = 1, placed inside the rectangle of its
    material, whatever ti.random() returns in [0, 1). *)
Theorem initialize_state :
  forall (np : Z) (rnd : Z -> nat -> R),
    unit_random rnd ->
    length (initialize np rnd) = Z.to_nat np /\
    Forall (fun p => v p = vzero /\ C p = mzero /\ F p = mident /\ Jp p = 1 /\
                     in_material_region p) (initialize np rnd).
Proof.
  intros np rnd Hr. unfold initialize. split.
  - now rewrite length_map, length_seq.
  - rewrite Forall_forall. intros p Hp. apply in_map_iff in Hp.
    destruct Hp as (k & <- & _). now apply init_particle_state.
Qed.

Lemma half_unit_random : unit_random (fun _ _ => 0.5).
Proof. intros i k. lra. Qed.

Lemma initialize_state_witness :
  length (initialize n_particles (fun _ _ => 0.5)) = Z.to_nat n_particles /\
  Forall (fun p => v p = vzero /\ C p = mzero /\ F p = mident /\ Jp p = 1 /\
                   in_material_region p) (initialize n_particles (fun _ _ => 0.5)).
Proof.
  exact (initialize_state n_particles (fun _ _ => 0.5) half_unit_random).
Defined.

Lemma init_particle_material (np : Z) (rnd : Z -> nat -> R) (i : Z) :
  material (init_particle np rnd i) =
  if (3 * i <? 2 * np)%Z then 0%Z else if (6 * i <? 5 * np)%Z then 1%Z else 2%Z.
Proof.
  unfold init_particle.
  destruct (Rlt_dec (IZR i) (IZR np * 2 / 3)) as [H1|H1].
  - replace (3 * i <? 2 * np)%Z with true; [reflexivity|].
    symmetry. apply Z.ltb_lt. apply lt_IZR. rewrite !mult_IZR. lra.
  - replace (3 * i <? 2 * np)%Z with false.
    2:{ symmetry. apply Z.ltb_ge. apply le_IZR. rewrite !mult_IZR. lra. }
    destruct (Rlt_dec (IZR i) (IZR np * 5 / 6)) as [H2|H2].
    + replace (6 * i <? 5 * np)%Z with true; [reflexivity|].
      symmetry. apply Z.ltb_lt. apply lt_IZR. rewrite !mult_IZR. lra.
    + replace (6 * i <? 5 * np)%Z with false; [reflexivity|].
      symmetry. apply Z.ltb_ge. apply le_IZR. rewrite !mult_IZR. lra.
Qed.

(** X16: the material that initialize() gives to index k is decided by
    integer thresholds: liquid when 3 k < 2 n, jelly when 2 n <= 3 k and
    6 k < 5 n, snow otherwise.  With the source's 10000 particles the liquid
    has indices 0..6666, the jelly 6667..8333 and the snow 8334..9999. *)
Theorem initialize_materials :
  forall (np : Z) (rnd : Z -> nat -> R) (k : nat) (p : Particle),
    nth_error (initialize np rnd) k = Some p ->
    (Z.of_nat k < np)%Z /\
    material p =
    (if (3 * Z.of_nat k <? 2 * np)%Z then 0
     else if (6 * Z.of_nat k <? 5 * np)%Z then 1 else 2)%Z.
Proof.
  intros np rnd k p H. unfold initialize in H.
  rewrite nth_error_map in H.
  destruct (nth_error (seq 0 (Z.to_nat np)) k) as [k'|] eqn:Hk; [|discriminate].
  injection H as <-.
  assert (Hlt : (k < Z.to_nat np)%nat).
  { assert (Hn : nth_error (seq 0 (Z.to_nat np)) k <> None) by congruence.
    apply nth_error_Some in Hn. now rewrite length_seq in Hn. }
  rewrite nth_error_seq in Hk.
  destruct (Nat.ltb_spec k (Z.to_nat np)); [|lia].
  injection Hk as Hk. subst k'. simpl Nat.add.
  split; [lia|]. apply init_particle_material.
Qed.

Lemma initialize_nth (np : Z) (rnd : Z -> nat -> R) (k : nat) :
  (Z.of_nat k < np)%Z ->
  nth_error (initialize np rnd) k = Some (init_particle np rnd (Z.of_nat k)).
Proof.
  intro H. unfold initialize. rewrite nth_error_map, nth_error_seq.
  destruct (Nat.ltb_spec k (Z.to_nat np)); [reflexivity|lia].
Qed.

Lemma initialize_materials_witness :
  (Z.of_nat (Z.to_nat 6667) < n_particles)%Z /\
  material (init_particle n_particles (fun _ _ => 0.5) (Z.of_nat (Z.to_nat 6667))) =
  (if (3 * Z.of_nat (Z.to_nat 6667) <? 2 * n_particles)%Z then 0
   else if (6 * Z.of_nat (Z.to_nat 6667) <? 5 * n_particles)%Z then 1 else 2)%Z.
Proof.
  apply (initialize_materials n_particles (fun _ _ => 0.5) (Z.to_nat 6667)).
  apply initialize_nth. reflexivity.
Defined.

Lemma region_rests_inside (p : Particle) :
  v p = vzero -> C p = mzero -> F p = mident -> in_material_region p ->
  rests_inside source_params p.
Proof.
  intros Hv HC HF Hreg. unfold rests_inside, in_band, dx. simpl.
  repeat split; auto;
    destruct Hreg as [(_ & Hx & Hy)|[(_ & Hx & Hy)|(_ & Hx & Hy)]]; lra.
Qed.

(** X17: the first substep of the program.  From the state that
    initialize() builds, with any values of ti.random() in [0, 1) and the
    source's constants, substep succeeds (no particle indexes outside the
    grid) and every particle ends with velocity (0, - dt * gravity), moved
    down by dt times that velocity, with C, F, Jp and material unchanged. *)
Theorem first_substep_falls :
  forall (svd : Mat2 -> Mat2 * Mat2 * Mat2) (g : Grid) (np : Z)
         (rnd : Z -> nat -> R),
    grid_shape source_params g ->
    svd_exact_at svd mident ->
    unit_random rnd ->
    exists g' : Grid,
      substep source_params svd (g, initialize np rnd) =
      Some (g', map (falling source_params) (initialize np rnd)).
Proof.
  intros svd g np rnd Hs Hsvd Hr.
  assert (Hall : Forall (rests_inside source_params) (initialize np rnd)).
  { unfold initialize. rewrite Forall_forall. intros p Hp.
    apply in_map_iff in Hp. destruct Hp as (k & <- & _).
    destruct (init_particle_state np rnd (Z.of_nat k) Hr) as (Hv & HC & HF & _ & Hreg).
    now apply region_rests_inside. }
  destruct (P2G_ok source_params svd (initialize np rnd)
              (clear_grid source_params g) (clear_grid_shape _ g Hs)) as (g1 & HP & Hs1 & _).
  { eapply Forall_impl; [|exact Hall]. intros p (_ & _ & _ & Hb & _).
    apply band_stencil; [reflexivity|exact Hb]. }
  assert (Hbh : Forall (beyond_half_cell source_params) (initialize np rnd)).
  { eapply Forall_impl; [|exact Hall]. intros p (_ & _ & _ & Hb & _).
    apply band_beyond_half_cell; [reflexivity|exact Hb]. }
  assert (Hmom : Forall (fun p => v p = vzero /\ affine source_params svd p = mzero)
                   (initialize np rnd)).
  { eapply Forall_impl; [|exact Hall]. intros p (Hv & HC & HF & _).
    split; [exact Hv|]. apply (rest_constitutive source_params svd p Hsvd HC HF). }
  assert (Hrest : Forall (fun p => C p = mzero /\ F p = mident) (initialize np rnd)).
  { eapply Forall_impl; [|exact Hall]. intros p (_ & HC & HF & _). auto. }
  pose proof (P2G_still source_params svd _ Hmom _ _ _
                (clear_grid_still source_params g) HP) as Hstill.
  pose proof (P2G_mass_covers source_params svd _ Hbh _ _ _
                (clear_grid_masses source_params g) HP) as Hcov.
  unfold substep. simpl fst. simpl snd. rewrite HP. cbn [bind].
  rewrite (rest_map_p2g source_params svd _ Hsvd Hrest).
  rewrite (G2P_map source_params _ (falling source_params)).
  - cbn [bind]. eauto.
  - intros p Hp. rewrite Forall_forall in Hall.
    apply rest_g2p_falls; auto.
    + reflexivity.
    + simpl. lra.
Qed.

Lemma first_substep_falls_witness :
  exists g' : Grid,
    substep source_params svd_diag
      (drift_grid, initialize n_particles (fun _ _ => 0.5)) =
    Some (g', map (falling source_params)
                (initialize n_particles (fun _ _ => 0.5))).
Proof.
  exact (first_substep_falls svd_diag drift_grid n_particles (fun _ _ => 0.5)
           drift_grid_shape svd_diag_exact_identity half_unit_random).
Defined.

Lemma centre_rests_inside (mat : Z) : rests_inside source_params (centre_particle mat).
Proof.
  unfold rests_inside. repeat split; try reflexivity;
    try (unfold dx; simpl; lra).
Qed.

Lemma rest_particles_fall_witness :
  exists g' : Grid,
    substep source_params svd_diag
      (drift_grid, [centre_particle 0; centre_particle 1; centre_particle 2]) =
    Some (g', map (falling source_params)
                [centre_particle 0; centre_particle 1; centre_particle 2]).
Proof.
  apply (rest_particles_fall source_params svd_diag drift_grid).
  - reflexivity.
  - exact drift_grid_shape.
  - simpl. lra.
  - exact svd_diag_exact_identity.
  - exact (Forall_cons _ (centre_rests_inside 0)
             (Forall_cons _ (centre_rests_inside 1)
                (Forall_cons _ (centre_rests_inside 2) (Forall_nil _)))).
Defined.

(** ** Determinant of the deformation gradient written by P2G *)

(** X18: the deformation gradient P2G writes for a Snow particle is
    invertible: when the factors U and V returned by svd are orthogonal and
    sig is diagonal, the square of its determinant is the square of the
    product of the two clamped singular values, which is not zero. *)
Theorem snow_F_invertible :
  forall (c : Params) (svd : Mat2 -> Mat2 * Mat2 * Mat2) (p : Particle),
    material p = 2%Z ->
    svd_orthogonal svd ->
    det (F (p2g_particle c svd p)) * det (F (p2g_particle c svd p)) =
    J_of c svd p * J_of c svd p /\
    0.975 * 0.975 <= J_of c svd p <= 1.0045 * 1.0045 /\
    det (F (p2g_particle c svd p)) <> 0.
Proof.
  intros c svd p Hm Hsvd.
  destruct (Hsvd (F_update c p)) as (HU & HV & Hd0 & Hd1).
  pose proof (det_orthogonal_sq _ HU) as HdU.
  pose proof (det_orthogonal_sq _ HV) as HdV.
  pose proof (clamp_sig_range (m00 (svd_sig svd (F_update c p)))) as R0.
  pose proof (clamp_sig_range (m11 (svd_sig svd (F_update c p)))) as R1.
  assert (HJ : J_of c svd p =
               clamp_sig (m00 (svd_sig svd (F_update c p))) *
               clamp_sig (m11 (svd_sig svd (F_update c p)))).
  { unfold J_of. rewrite plasticity_unfold, Hm. simpl. ring. }
  assert (Hdet : det (F (p2g_particle c svd p)) =
                 det (svd_U svd (F_update c p)) * J_of c svd p *
                 det (svd_V svd (F_update c p))).
  { simpl. unfold F_new, sig_new. rewrite plasticity_unfold, Hm. simpl.
    rewrite !det_mmul, det_transpose, HJ. unfold svd_sig.
    rewrite Hd0, Hd1. unfold det at 2. simpl. ring. }
  set (a := clamp_sig (m00 (svd_sig svd (F_update c p)))) in *.
  set (b := clamp_sig (m11 (svd_sig svd (F_update c p)))) in *.
  unfold svd_U, svd_V in Hdet.
  set (dU := det (fst (fst (svd (F_update c p))))) in *.
  set (dV := det (snd (svd (F_update c p)))) in *.
  assert (Hsq : det (F (p2g_particle c svd p)) * det (F (p2g_particle c svd p)) =
                J_of c svd p * J_of c svd p).
  { rewrite Hdet.
    replace (dU * J_of c svd p * dV * (dU * J_of c svd p * dV))
      with ((dU * dU) * (dV * dV) * (J_of c svd p * J_of c svd p)) by ring.
    rewrite HdU, HdV. ring. }
  assert (Hab : 0.975 * 0.975 <= a * b <= 1.0045 * 1.0045).
  { split.
    - apply Rmult_le_compat; lra.
    - apply Rmult_le_compat; lra. }
  split; [exact Hsq|]. split; [rewrite HJ; exact Hab|].
  intro Hz. rewrite Hz, HJ in Hsq. nra.
Qed.

Lemma snow_F_invertible_witness :
  det (F (p2g_particle source_params svd_diag (centre_particle 2))) <> 0.
Proof.
  exact (proj2 (proj2 (snow_F_invertible source_params svd_diag (centre_particle 2)
                         eq_refl svd_diag_orthogonal))).
Defined.

(** X19: the deformation gradient P2G writes for a Fluid particle keeps only
    the volume ratio: when J is not negative its determinant is J. *)
Theorem fluid_F_determinant :
  forall (c : Params) (svd : Mat2 -> Mat2 * Mat2 * Mat2) (p : Particle),
    material p = 0%Z ->
    0 <= J_of c svd p ->
    det (F (p2g_particle c svd p)) = J_of c svd p.
Proof.
  intros c svd p Hm HJ. simpl. unfold F_new. rewrite Hm. simpl.
  unfold det, mscale_r, mident. simpl.
  replace (1 * sqrt (J_of c svd p) * (1 * sqrt (J_of c svd p)) -
           0 * sqrt (J_of c svd p) * (0 * sqrt (J_of c svd p)))
    with (sqrt (J_of c svd p) * sqrt (J_of c svd p)) by ring.
  now apply sqrt_sqrt.
Qed.

Lemma centre_J_of (mat : Z) : J_of source_params svd_diag (centre_particle mat) = 1.
Proof.
  unfold J_of.
  rewrite (rest_plasticity source_params svd_diag (centre_particle mat)
             svd_diag_exact_identity eq_refl eq_refl).
  reflexivity.
Qed.

Lemma fluid_F_determinant_witness :
  det (F (p2g_particle source_params svd_diag (centre_particle 0))) =
  J_of source_params svd_diag (centre_particle 0).
Proof.
  apply (fluid_F_determinant source_params svd_diag (centre_particle 0)).
  - reflexivity.
  - rewrite centre_J_of. lra.
Defined.

(** ** G2P on an affine velocity field *)

Lemma gather_reads c (g : Grid) (p : Particle) (val : nat -> nat -> Vec2)
    (offs : list (nat * nat)) :
  (forall i j, In (i, j) offs ->
     exists nd, grid_get c g (iadd (base_of c p) (offset_of i j)) = Some nd /\
                grid_v nd = val i j) ->
  forall acc, gather c g p offs acc = Some (gather_values c p val offs acc).
Proof.
  induction offs as [|[i j] rest IH]; intros Hin acc; cbn [gather gather_values].
  - reflexivity.
  - destruct (Hin i j (or_introl eq_refl)) as (nd & -> & Hv). cbn [bind].
    rewrite Hv. apply IH. intros i' j' H'. apply Hin. now right.
Qed.

Lemma gather_values_moments c (p : Particle) (u0 : Vec2) (G : Mat2)
    (offs : list (nat * nat)) :
  forall acc,
    gather_values c p
      (fun i j => vadd u0 (mvec G (vsub (cast_float (offset_of i j)) (fx_of c p))))
      offs acc
    = (vadd (fst acc)
         (vadd (vscale (weight_sum c p offs) u0)
            (mvec G (weight_moment c p offs))),
       madd (snd acc)
         (mscale (4 * inv_dx c)
            (madd (outer_product u0 (weight_moment c p offs))
               (mmul G (weight_second_moment c p offs))))).
Proof.
  induction offs as [|[i j] rest IH]; intros [av aC].
  - cbn [gather_values weight_sum weight_moment weight_second_moment fst snd].
    destruct av, aC, u0, G. unfold vadd, vscale, mvec, madd, mscale, mmul,
      outer_product, vzero, mzero. cbn [vx vy m00 m01 m10 m11].
    f_equal; f_equal; ring.
  - cbn [gather_values weight_sum weight_moment weight_second_moment].
    rewrite IH. cbn [fst snd].
    generalize (weight_of c p i j) (vsub (cast_float (offset_of i j)) (fx_of c p))
      (weight_sum c p rest) (weight_moment c p rest)
      (weight_second_moment c p rest) (inv_dx c).
    intros w [d0 d1] W [M0 M1] [s00 s01 s10 s11] k.
    destruct av, aC, u0, G. unfold vadd, vscale, mvec, madd, mscale, mmul,
      outer_product. cbn [vx vy m00 m01 m10 m11].
    f_equal; f_equal; ring.
Qed.

Lemma weight_second_moment_stencil c (p : Particle) :
  weight_second_moment c p ndrange33 = mscale (1 / 4) mident.
Proof.
  rewrite (mat2_eta (weight_second_moment c p ndrange33)).
  unfold mscale, mident. cbn [m00 m01 m10 m11].
  f_equal;
    cbn [weight_second_moment ndrange33 madd mscale outer_product vsub cast_float
         offset_of weight_of bspline nth vx vy ix iy m00 m01 m10 m11 mzero
         Z.of_nat Pos.of_succ_nat Pos.succ];
    unfold weight_of, bspline; cbn [nth vx vy];
    generalize (fx_of c p); intros [a b]; cbn [vx vy];
    unfold w0, w1, w2; simpl pow; lra.
Qed.

Lemma gather_values_affine c (p : Particle) (u0 : Vec2) (G : Mat2) :
  gather_values c p
    (fun i j => vadd u0 (mvec G (vsub (cast_float (offset_of i j)) (fx_of c p))))
    ndrange33 (vzero, mzero)
  = (u0, mscale (inv_dx c) G).
Proof.
  rewrite gather_values_moments, weight_sum_stencil, weight_moment_stencil,
    weight_second_moment_stencil. cbn [fst snd].
  destruct u0, G. unfold vadd, vscale, mvec, madd, mscale, mmul, outer_product,
    vzero, mzero, mident. cbn [vx vy m00 m01 m10 m11].
  f_equal; f_equal; field.
Qed.

(** X20: G2P recovers an affine velocity field exactly: if the node at
    offset (i, j) of a particle's neighbourhood carries the velocity
    u0 + G (offset - fx), the particle gets velocity u0 and the affine matrix
    inv_dx * G, the gradient of the field in world units. *)
Theorem g2p_affine_field :
  forall (c : Params) (g : Grid) (p : Particle) (u0 : Vec2) (G : Mat2),
    (forall i j : nat, In (i, j) ndrange33 ->
       exists nd : Node,
         grid_get c g (iadd (base_of c p) (offset_of i j)) = Some nd /\
         grid_v nd =
         vadd u0 (mvec G (vsub (cast_float (offset_of i j)) (fx_of c p)))) ->
    g2p_particle c g p =
    Some {| x := vadd (x p) (vscale (dt c) u0); v := u0;
            C := mscale (inv_dx c) G;
            F := F p; material := material p; Jp := Jp p |}.
Proof.
  intros c g p u0 G H. unfold g2p_particle.
  rewrite (gather_reads c g p _ ndrange33 H), gather_values_affine.
  reflexivity.
Qed.

Lemma g2p_affine_field_witness :
  g2p_particle source_params (update_gridv source_params drift_grid)
    (centre_particle 1) =
  Some {| x := vadd (x (centre_particle 1))
                 (vscale (dt source_params)
                    (grid_v (update_node source_params drift_node)));
          v := grid_v (update_node source_params drift_node);
          C := mscale (inv_dx source_params) mzero;
          F := F (centre_particle 1); material := material (centre_particle 1);
          Jp := Jp (centre_particle 1) |}.
Proof.
  apply (g2p_affine_field source_params _ (centre_particle 1)
           (grid_v (update_node source_params drift_node)) mzero).
  intros i j Hin.
  destruct (drift_update_stencil _ (centre_stencil 1) i j Hin) as (nd & Hnd & Hu).
  exists nd. split; [exact Hnd|]. rewrite Hu.
  destruct (grid_v (update_node source_params drift_node)) as [a b].
  unfold vadd, mvec, mzero. cbn [vx vy m00 m01 m10 m11]. f_equal; ring.
Defined.

(** ** Particles moving together *)

Lemma wall_interior (n i : Z) (a : R) : (3 <= i <= n - 3)%Z -> wall n i a = a.
Proof.
  intro Hi. unfold wall.
  replace (i <? 3)%Z with false by (symmetry; apply Z.ltb_ge; lia).
  replace (i >? n - 3)%Z with false
    by (symmetry; rewrite Z.gtb_ltb; apply Z.ltb_ge; lia).
  reflexivity.
Qed.

Lemma scatter_comoving c svd (p : Particle) (v0 : Vec2) (offs : list (nat * nat)) :
  v p = v0 -> affine c svd p = mzero ->
  forall g g' : Grid,
    Forall (fun nd => grid_v nd = vscale (grid_m nd) v0) g ->
    scatter c svd p offs g = Some g' ->
    Forall (fun nd => grid_v nd = vscale (grid_m nd) v0) g'.
Proof.
  intros Hv Ha. induction offs as [|[i j] rest IH]; intros g g' Hg H;
    cbn [scatter] in H.
  - now injection H as <-.
  - unfold grid_add in H at 1.
    destruct (grid_get c g (iadd (base_of c p) (offset_of i j))) as [nd|] eqn:Hnd;
      cbn [bind] in H; [|discriminate].
    apply IH in H; [exact H|].
    apply set_nth_Forall; [exact Hg|]. cbn [grid_v grid_m].
    assert (Hn : grid_v nd = vscale (grid_m nd) v0).
    { unfold grid_get in Hnd. destruct (in_grid c _); [|discriminate].
      apply nth_error_In in Hnd. rewrite Forall_forall in Hg. auto. }
    rewrite Hn, Hv, Ha. destruct v0. mat_ring.
Qed.

Lemma P2G_comoving c svd (v0 : Vec2) (ps : list Particle) :
  Forall (fun p => v p = v0 /\ affine c svd p = mzero) ps ->
  forall (g g' : Grid) (ps' : list Particle),
    Forall (fun nd => grid_v nd = vscale (grid_m nd) v0) g ->
    P2G c svd g ps = Some (g', ps') ->
    Forall (fun nd => grid_v nd = vscale (grid_m nd) v0) g'.
Proof.
  intro Hall. induction Hall as [|p rest [Hv Ha] Hrest IH]; intros g g' ps' Hg H;
    cbn [P2G] in H.
  - now inversion H; subst.
  - destruct (scatter c svd p ndrange33 g) as [g1|] eqn:Hg1; cbn [bind] in H;
      [|discriminate].
    destruct (P2G c svd g1 rest) as [[g2 rest']|] eqn:Hg2; cbn [bind] in H;
      [|discriminate].
    inversion H; subst. eapply IH; [|exact Hg2].
    eapply scatter_comoving; eauto.
Qed.

Lemma clear_grid_comoving c (v0 : Vec2) (g : Grid) :
  Forall (fun nd => grid_v nd = vscale (grid_m nd) v0) (clear_grid c g).
Proof.
  unfold clear_grid, map_nodes. generalize 0%nat.
  induction g as [|h t IH]; intro k; simpl; constructor; auto.
  destruct v0. simpl. mat_ring.
Qed.

Lemma comoving_node c (i j : Z) (nd : Node) (v0 : Vec2) (w : R) :
  grid_v nd = vscale (grid_m nd) v0 ->
  (3 <= i <= n_grid c - 3)%Z -> (3 <= j <= n_grid c - 3)%Z ->
  0 <= w -> 0 < p_mass c -> w * p_mass c <= grid_m nd ->
  vscale w (grid_v (boundary_node c i j (update_node c nd))) =
  vscale w (vec2 (vx v0) (vy v0 - dt c * gravity c)).
Proof.
  intros Hv Hi Hj Hw Hpm Hm. rewrite boundary_node_axes, !wall_interior by auto.
  cbn [grid_v]. unfold update_node.
  destruct (Rlt_dec 0 (grid_m nd)) as [Hpos|Hnpos].
  - cbn [grid_v]. rewrite Hv. destruct v0 as [a b].
    unfold vscale. cbn [vx vy]. f_equal; field; lra.
  - assert (w = 0) by nra. subst w. unfold vscale. cbn [vx vy]. f_equal; ring.
Qed.

Lemma base_interior c (p : Particle) :
  (0 < n_grid c)%Z ->
  4 * dx c <= vx (x p) <= 1 - 4 * dx c ->
  4 * dx c <= vy (x p) <= 1 - 4 * dx c ->
  (3 <= ix (base_of c p) <= n_grid c - 5)%Z /\
  (3 <= iy (base_of c p) <= n_grid c - 5)%Z.
Proof.
  intros Hn Hx Hy. unfold base_of, vcast_int, vsub_s, vscale_r. simpl.
  assert (HN : 0 < IZR (n_grid c)) by (apply (IZR_lt 0); exact Hn).
  assert (Hr : forall a, 4 * dx c <= a <= 1 - 4 * dx c ->
                 3.5 <= a * inv_dx c - 0.5 <= IZR (n_grid c) - 4.5).
  { intros a [Hlo Hhi]. unfold dx, inv_dx in *.
    set (N := IZR (n_grid c)) in *.
    assert (Hd : 1 / N * N = 1) by (field; lra).
    set (d := 1 / N) in *. split; nra. }
  assert (Hz : forall r, 3.5 <= r <= IZR (n_grid c) - 4.5 ->
                 (3 <= cast_int r <= n_grid c - 5)%Z).
  { intros r [Hlo Hhi]. destruct (cast_int_floor r) as [H1 H2]; [lra|]. split.
    - assert (H : (2 < cast_int r)%Z) by (apply lt_IZR; lra). lia.
    - assert (H : (cast_int r < n_grid c - 4)%Z)
        by (apply lt_IZR; rewrite minus_IZR; lra).
      lia. }
  split; apply Hz, Hr; assumption.
Qed.

Lemma moves_inside_band c (v0 : Vec2) (p : Particle) :
  (0 < n_grid c)%Z -> moves_inside c v0 p -> in_band c p.
Proof.
  intros Hn (_ & _ & _ & Hx & Hy). unfold in_band.
  assert (Hd : 0 < dx c).
  { unfold dx. apply Rdiv_lt_0_compat; [lra|]. apply (IZR_lt 0). exact Hn. }
  split; lra.
Qed.

Lemma comoving_g2p c (g1 : Grid) (v0 : Vec2) (p : Particle) :
  (0 < n_grid c)%Z ->
  Forall (fun nd => grid_v nd = vscale (grid_m nd) v0) g1 ->
  moves_inside c v0 p ->
  (forall i j, In (i, j) ndrange33 ->
     exists nd, nth_error g1 (flat c (iadd (base_of c p) (offset_of i j))) = Some nd /\
                weight_of c p i j * p_mass c <= grid_m nd) ->
  g2p_particle c (enforce_boundary c (update_gridv c g1)) p =
  Some (moved c (vec2 (vx v0) (vy v0 - dt c * gravity c)) p).
Proof.
  intros Hn Hco Hmv Hcov.
  pose proof (moves_inside_band c v0 p Hn Hmv) as Hband.
  pose proof (band_stencil c p Hn Hband) as Hst.
  pose proof (band_beyond_half_cell c p Hn Hband) as Hbh.
  destruct Hmv as (Hv & HC & HF & Hx & Hy).
  destruct (base_interior c p Hn Hx Hy) as [Hbx Hby].
  unfold g2p_particle.
  rewrite (gather_weighted c _ p (vec2 (vx v0) (vy v0 - dt c * gravity c)) ndrange33).
  - rewrite weight_sum_stencil, weight_moment_stencil. cbn [bind fst snd].
    unfold moved. rewrite HF. f_equal. f_equal; mat_ring.
  - intros i j Hin. destruct (Hcov i j Hin) as (nd & Hnd & Hm).
    exists (boundary_node c (ix (iadd (base_of c p) (offset_of i j)))
              (iy (iadd (base_of c p) (offset_of i j))) (update_node c nd)).
    split.
    + unfold enforce_boundary, update_gridv. rewrite !grid_get_map_nodes.
      unfold grid_get. rewrite (Hst i j Hin), Hnd. reflexivity.
    + assert (Hij : (i <= 2 /\ j <= 2)%nat).
      { unfold ndrange33 in Hin. simpl in Hin.
        repeat (destruct Hin as [Hin|Hin]; [injection Hin as <- <-; lia|]).
        contradiction. }
      apply comoving_node; auto.
      * rewrite Forall_forall in Hco. apply Hco. eapply nth_error_In; eauto.
      * unfold iadd, offset_of. cbn [ix]. lia.
      * unfold iadd, offset_of. cbn [iy]. lia.
      * apply (weight_of_range c p i j Hbh Hin).
      * now apply p_mass_pos.
Qed.

(* one substep of particles that move together *)
Lemma comoving_substep c svd (g : Grid) (v0 : Vec2) (ps : list Particle) :
    (0 < n_grid c)%Z ->
    grid_shape c g ->
    svd_exact_at svd mident ->
    Forall (moves_inside c v0) ps ->
    exists g' : Grid,
      substep c svd (g, ps) =
      Some (g', map (moved c (vec2 (vx v0) (vy v0 - dt c * gravity c))) ps).
Proof.
  intros Hn Hs Hsvd Hall.
  assert (Hband : Forall (in_band c) ps).
  { eapply Forall_impl; [|exact Hall]. intros p Hp.
    now apply (moves_inside_band c v0). }
  assert (Hst : Forall (stencil_in_grid c) ps).
  { eapply Forall_impl; [|exact Hband]. intros p Hp. now apply band_stencil. }
  assert (Hbh : Forall (beyond_half_cell c) ps).
  { eapply Forall_impl; [|exact Hband]. intros p Hp.
    now apply band_beyond_half_cell. }
  assert (Hrest : Forall (fun p => C p = mzero /\ F p = mident) ps).
  { eapply Forall_impl; [|exact Hall]. intros p (_ & HC & HF & _). auto. }
  assert (Hmom : Forall (fun p => v p = v0 /\ affine c svd p = mzero) ps).
  { eapply Forall_impl; [|exact Hall]. intros p (Hv & HC & HF & _).
    split; [exact Hv|]. apply (rest_constitutive c svd p Hsvd HC HF). }
  unfold substep. simpl fst. simpl snd.
  destruct (P2G_ok c svd ps (clear_grid c g) (clear_grid_shape c g Hs) Hst)
    as (g1 & HP & Hs1 & _).
  pose proof (P2G_comoving c svd v0 ps Hmom _ _ _ (clear_grid_comoving c v0 g) HP)
    as Hco.
  pose proof (P2G_mass_covers c svd ps Hbh _ _ _ (clear_grid_masses c g) HP) as Hcov.
  rewrite HP. cbn [bind]. rewrite (rest_map_p2g c svd ps Hsvd Hrest).
  rewrite (G2P_map c _ (moved c (vec2 (vx v0) (vy v0 - dt c * gravity c))) ps).
  - cbn [bind]. eauto.
  - intros p Hp. rewrite Forall_forall in Hall.
    apply comoving_g2p; auto.
Qed.

(** X21: undeformed particles that move with one common velocity v0, at
    least 4 cells from every edge of the domain, keep moving together: after
    one substep each has velocity v0 - (0, dt * gravity), has moved by dt
    times that velocity, and C, F, Jp and material are unchanged.  The
    transfer to the grid and back adds no force of its own. *)
Theorem comoving_particles_translate :
  forall (c : Params) (svd : Mat2 -> Mat2 * Mat2 * Mat2) (g : Grid)
         (v0 : Vec2) (ps : list Particle),
    (0 < n_grid c)%Z ->
    grid_shape c g ->
    svd_exact_at svd mident ->
    Forall (moves_inside c v0) ps ->
    exists g' : Grid,
      substep c svd (g, ps) =
      Some (g', map (moved c (vec2 (vx v0) (vy v0 - dt c * gravity c))) ps).
Proof.
  intros c svd g v0 ps Hn Hs Hsvd Hall.
  destruct (comoving_substep c svd g v0 ps Hn Hs Hsvd Hall) as [g' H].
  exists g'. exact H.
Qed.

Lemma drifting_moves_inside :
  moves_inside source_params (vec2 1 0) drifting_particle.
Proof.
  unfold moves_inside, dx. simpl. repeat split; try reflexivity; lra.
Qed.

Lemma comoving_particles_translate_witness :
  exists g' : Grid,
    substep source_params svd_diag (drift_grid, [drifting_particle]) =
    Some (g', map (moved source_params
                     (vec2 1 (0 - dt source_params * gravity source_params)))
                [drifting_particle]).
Proof.
  exact (comoving_particles_translate source_params svd_diag drift_grid (vec2 1 0)
           [drifting_particle] eq_refl drift_grid_shape svd_diag_exact_identity
           (Forall_cons _ drifting_moves_inside (Forall_nil _))).
Defined.

(** ** Ballistic motion over a run *)

Lemma ballistic_velocity c (v0 : Vec2) (n : nat) (p : Particle) :
  v p = v0 ->
  v (ballistic c n p) = vec2 (vx v0) (vy v0 - INR n * (dt c * gravity c)).
Proof.
  intro Hv. induction n as [|n IH].
  - cbn [ballistic]. rewrite Hv. destruct v0. simpl. f_equal; ring.
  - cbn [ballistic]. cbv zeta. unfold moved. cbn [v]. rewrite IH. cbn [vx vy].
    rewrite S_INR. f_equal. ring.
Qed.

Lemma ballistic_undeformed c (n : nat) (p : Particle) :
  C p = mzero -> F p = mident ->
  C (ballistic c n p) = mzero /\ F (ballistic c n p) = mident.
Proof. intros HC HF. destruct n; cbn [ballistic]; auto. Qed.

Lemma ballistic_run c svd (v0 : Vec2) (ps : list Particle) (n : nat) :
  (0 < n_grid c)%Z ->
  svd_exact_at svd mident ->
  Forall (fun p => v p = v0 /\ C p = mzero /\ F p = mident) ps ->
  (forall k, (k < n)%nat ->
     Forall (fun p => four_cells_inside c (ballistic c k p)) ps) ->
  forall g : Grid,
    grid_shape c g ->
    exists g' : Grid,
      substeps c svd n (g, ps) = Some (g', map (ballistic c n) ps) /\
      grid_shape c g'.
Proof.
  intros Hn Hsvd Hinit. induction n as [|n IH]; intros Hin g Hs.
  - exists g. split; [|exact Hs]. cbn [substeps ballistic]. now rewrite map_id.
  - destruct (IH (fun k Hk => Hin k (Nat.lt_lt_succ_r _ _ Hk)) g Hs)
      as (g_n & Hrun & Hs_n).
    rewrite substeps_snoc, Hrun. cbn [bind].
    destruct (comoving_substep c svd g_n
                (vec2 (vx v0) (vy v0 - INR n * (dt c * gravity c)))
                (map (ballistic c n) ps) Hn Hs_n Hsvd) as [g' Hstep].
    { rewrite Forall_map. pose proof (Hin n (Nat.lt_succ_diag_r n)) as Hpos.
      rewrite Forall_forall in *. intros p Hp.
      destruct (Hinit p Hp) as (Hv & HC & HF).
      destruct (ballistic_undeformed c n p HC HF) as [HCn HFn].
      destruct (Hpos p Hp) as [Hx Hy].
      unfold moves_inside. rewrite (ballistic_velocity c v0 n p Hv). auto. }
    exists g'. split.
    + rewrite Hstep. f_equal. f_equal. rewrite map_map. apply map_ext_in.
      intros p Hp. rewrite Forall_forall in Hinit.
      destruct (Hinit p Hp) as (Hv & _).
      cbn [ballistic]. cbv zeta. rewrite (ballistic_velocity c v0 n p Hv).
      reflexivity.
    + destruct (substep_length_material c svd _ _ Hstep) as [Hlen _].
      unfold grid_shape in *. simpl in Hlen. congruence.
Qed.

(** X22: ballistic motion.  Undeformed particles that start with one common
    velocity v0 and stay at least 4 cells from every edge during a run of n
    substeps all have velocity v0 - (0, n * dt * gravity) at its end, each
    substep having moved them by dt times their new velocity; C, F, Jp and
    material never change. *)
Theorem ballistic_particles :
  forall (c : Params) (svd : Mat2 -> Mat2 * Mat2 * Mat2) (g : Grid)
         (v0 : Vec2) (ps : list Particle) (n : nat),
    (0 < n_grid c)%Z ->
    grid_shape c g ->
    svd_exact_at svd mident ->
    Forall (fun p => v p = v0 /\ C p = mzero /\ F p = mident) ps ->
    (forall k : nat, (k < n)%nat ->
       Forall (fun p => four_cells_inside c (ballistic c k p)) ps) ->
    exists g' : Grid,
      substeps c svd n (g, ps) = Some (g', map (ballistic c n) ps) /\
      Forall (fun p =>
                v (ballistic c n p) =
                vec2 (vx v0) (vy v0 - INR n * (dt c * gravity c)) /\
                C (ballistic c n p) = mzero /\ F (ballistic c n p) = mident)
        ps.
Proof.
  intros c svd g v0 ps n Hn Hs Hsvd Hinit Hin.
  destruct (ballistic_run c svd v0 ps n Hn Hsvd Hinit Hin g Hs) as (g' & Hrun & _).
  exists g'. split; [exact Hrun|].
  eapply Forall_impl; [|exact Hinit]. intros p (Hv & HC & HF).
  split; [now apply ballistic_velocity|now apply ballistic_undeformed].
Qed.

Lemma drifting_four_cells_inside :
  four_cells_inside source_params drifting_particle.
Proof. unfold four_cells_inside, dx. simpl. split; lra. Qed.

Lemma drifting_after_one_step_inside :
  four_cells_inside source_params (ballistic source_params 1 drifting_particle).
Proof.
  unfold four_cells_inside, dx. cbn [ballistic]. cbv zeta. unfold moved. simpl.
  split; lra.
Qed.

Lemma ballistic_particles_witness :
  exists g' : Grid,
    substeps source_params svd_diag 2 (drift_grid, [drifting_particle]) =
    Some (g', map (ballistic source_params 2) [drifting_particle]) /\
    Forall (fun p =>
              v (ballistic source_params 2 p) =
              vec2 (vx (vec2 1 0))
                   (vy (vec2 1 0) - INR 2 * (dt source_params * gravity source_params)) /\
              C (ballistic source_params 2 p) = mzero /\
              F (ballistic source_params 2 p) = mident)
      [drifting_particle].
Proof.
  apply (ballistic_particles source_params svd_diag drift_grid (vec2 1 0)
           [drifting_particle] 2).
  - reflexivity.
  - exact drift_grid_shape.
  - exact svd_diag_exact_identity.
  - repeat constructor.
  - intros k Hk. constructor; [|constructor].
    destruct k as [|[|k]]; [exact drifting_four_cells_inside
                           |exact drifting_after_one_step_inside|lia].
Defined.
